(** * lamp/utilities.py: gradient distance, nearest-token search,
      perplexity scoring and boundary fix-up

    A shallow embedding of [utilities.py].  Tensors are nested lists of
    scalars; the scalar arithmetic of the tensor library is an interface
    ([Scalar]); the arithmetic of the code is its instance IEEE-754
    binary32 ([float32], the default dtype of the tensors the code handles,
    built on the Standard Library's [SpecFloat]).  What a theorem needs of
    the arithmetic is a class of laws, each proved for binary32.  Python
    exceptions are the error constructor of [result]. *)

From Stdlib Require Import String.
From Stdlib Require Import List ZArith Bool Lia PeanoNat.
From Stdlib Require Import SpecFloat.
From Stdlib Require Import Reals.
Import ListNotations.

Set Implicit Arguments.

(** ** Exceptions and results *)

Inductive exn : Type :=
| AssertionError
| ZeroDivisionError
| TypeError
| IndexError
| RuntimeError.

Inductive result (A : Type) : Type :=
| Ok (a : A)
| Raise (e : exn).

Arguments Ok {A} a.
Arguments Raise {A} e.

Definition bind {A B : Type} (c : result A) (k : A -> result B) : result B :=
  match c with
  | Ok a => k a
  | Raise e => Raise e
  end.

Notation "x <- c ;; k" := (bind c (fun x => k))
  (at level 61, c at next level, right associativity).
Notation "' p <- c ;; k" := (bind c (fun x => let 'p := x in k))
  (at level 61, p pattern, c at next level, right associativity).

(** [mapM f l]: a comprehension whose body may raise; the first exception,
    in list order, is the one that propagates. *)
Fixpoint mapM {A B : Type} (f : A -> result B) (l : list A) : result (list B) :=
  match l with
  | [] => Ok []
  | a :: l' => b <- f a ;; bs <- mapM f l' ;; Ok (b :: bs)
  end.

(** ** Scalar arithmetic of the tensor library *)

Class Scalar (F : Type) : Type := {
  fzero : F;                    (* 0.0 *)
  fone : F;                     (* 1.0 *)
  fsentinel : F;                (* 1e9 *)
  fepsilon : F;                 (* 1e-8 *)
  fadd : F -> F -> F;
  fsub : F -> F -> F;
  fmul : F -> F -> F;
  fdiv : F -> F -> F;
  fneg : F -> F;
  fabs : F -> F;
  fsqrt : F -> F;
  fof_nat : nat -> F;           (* a Python int operand of a tensor operation *)
  fge : F -> F -> bool;         (* [>=]; false as soon as one side is NaN *)
  fisnan : F -> bool
}.

(** ** Tensor helpers *)

Section Tensors.
Context {F : Type} `{Scalar F}.

Fixpoint map2 {A B C : Type} (f : A -> B -> C) (l1 : list A) (l2 : list B) : list C :=
  match l1, l2 with
  | a :: l1', b :: l2' => f a b :: map2 f l1' l2'
  | _, _ => []
  end.

(** [t.sum()] over a flattened tensor.  The library leaves the order and
    the intermediate precision of a reduction to its kernels; the fold
    fixes them as left to right in the working precision, which a kernel
    need not follow to the last bit.  What is proved of the value of a
    reduction holds whatever the order: zeros add up to zero. *)
Definition tsum (l : list F) : F := fold_left fadd l fzero.

Definition square (a : F) : F := fmul a a.

(** [v.norm(p=2)]: the root of the sum of the squares, the sum taken as
    [tsum] takes it. *)
Definition norm2 (v : list F) : F := fsqrt (tsum (map square v)).

(** Element-wise binary operation on two tensors.  A gradient is kept as
    the list of its elements, a tensor of one axis, and broadcasting is
    that of one axis: operands of one size are combined element by
    element, an operand of one element is combined with every element of
    the other, and any other two sizes are a shape error. *)
Definition elementwise (op : F -> F -> F) (a b : list F) : result (list F) :=
  if Nat.eqb (length a) (length b) then Ok (map2 op a b)
  else match a, b with
       | [a0], _ => Ok (map (op a0) b)
       | _, [b0] => Ok (map (fun x => op x b0) a)
       | _, _ => Raise RuntimeError
       end.

(** ** [grad_dist] *)

Record Args : Type := { loss : string; tag_factor : F }.

(** The accumulator [ret] starts as the Python float [0.0] and becomes a
    0-dim tensor at the first [ret += <tensor>]. *)
Inductive pynum : Type :=
| PyFloat (x : F)
| Tensor0 (x : F).

Definition pynum_val (r : pynum) : F :=
  match r with PyFloat x => x | Tensor0 x => x end.

(** [ret += t] with [t] a 0-dim tensor. *)
Definition iadd (ret : pynum) (t : F) : pynum :=
  match ret with
  | PyFloat x => Tensor0 (fadd t x)
  | Tensor0 x => Tensor0 (fadd x t)
  end.

(** [ret /= n_g] with [n_g] a Python int: float division raises on a zero
    divisor, tensor division does not. *)
Definition idiv (ret : pynum) (n_g : nat) : result pynum :=
  match ret with
  | PyFloat x =>
      if Nat.eqb n_g 0 then Raise ZeroDivisionError
      else Ok (PyFloat (fdiv x (fof_nat n_g)))
  | Tensor0 x => Ok (Tensor0 (fdiv x (fof_nat n_g)))
  end.

(** The summand of one pair whose two sides are present. *)
Definition grad_term (args : Args) (g1 g2 : list F) : result F :=
  if String.eqb (loss args) "cos" then
    p <- elementwise fmul g1 g2 ;;
    Ok (fsub fone (fdiv (tsum p) (fmul (norm2 g1) (norm2 g2))))
  else if String.eqb (loss args) "dlg" then
    d <- elementwise fsub g1 g2 ;;
    Ok (tsum (map square d))
  else if String.eqb (loss args) "tag" then
    d <- elementwise fsub g1 g2 ;;
    d' <- elementwise fsub g1 g2 ;;
    Ok (fadd (tsum (map square d)) (fmul (tag_factor args) (tsum (map fabs d'))))
  else Raise AssertionError.

(** The [for g1, g2 in zip(grads1, grads2)] loop, with its two
    accumulators. *)
Fixpoint grad_dist_loop (args : Args)
    (pairs : list (option (list F) * option (list F)))
    (ret : pynum) (n_g : nat) : result (pynum * nat) :=
  match pairs with
  | [] => Ok (ret, n_g)
  | (Some g1, Some g2) :: rest =>
      t <- grad_term args g1 g2 ;;
      grad_dist_loop args rest (iadd ret t) (S n_g)
  | _ :: rest => grad_dist_loop args rest ret n_g
  end.

Definition grad_dist (grads1 grads2 : list (option (list F))) (args : Args)
  : result pynum :=
  '(ret, n_g) <- grad_dist_loop args (combine grads1 grads2) (PyFloat fzero) 0 ;;
  if String.eqb (loss args) "cos" then idiv ret n_g else Ok ret.

End Tensors.

(** ** [get_closest_tokens] *)

Section NearestToken.
Context {F : Type} `{Scalar F}.

(** A [V x D] matrix and a [B x L x D] (or [B x L x V]) tensor, as the
    lists of their rows.  A dimension that follows an empty one is not
    recorded. *)
Definition tensor2 : Type := list (list F).
Definition tensor3 : Type := list (list (list F)).

(** [w.repeat(B, 1, 1)]: a fresh [B x V x D] tensor of [B] copies. *)
Definition repeat_batch (B : nat) (w : tensor2) : tensor3 := repeat w B.

Definition dot (x v : list F) : F := tsum (map2 fmul x v).
Definition vsub (a b : list F) : list F := map2 fsub a b.

(** Do the rows of [x] and of [w] have one common last dimension? *)
Definition same_last_dim (x w : tensor3) : bool :=
  forallb (fun xw =>
    forallb (fun xi =>
      forallb (fun wj => Nat.eqb (length xi) (length wj)) (snd xw)) (fst xw))
    (combine x w).

(** [f] applied to every (position, vocabulary row) pair of every batch
    element: the [B x L x V] layout of a distance matrix. *)
Definition pairwise (f : list F -> list F -> F) (x w : tensor3) : tensor3 :=
  map2 (fun xb wb => map (fun xi => map (fun wj => f xi wj) wb) xb) x w.

(** [t.clamp_min(lo)]; a NaN stays a NaN. *)
Definition clamp_min (v lo : F) : F :=
  if fisnan v then v else if fge v lo then v else lo.

(** The number of rows of the matrices of a batch: [t.size(-2)]. *)
Definition seq_len (x : tensor3) : nat := length (hd [] x).

(** One entry of [torch.cdist(x, w, p=2)], computed from the differences
    of the coordinates. *)
Definition direct_dist_entry (xi wj : list F) : F := norm2 (vsub xi wj).

(** One entry of [torch.cdist(x, w, p=2)] on the matrix-product route of
    the library: [|xi|^2 - 2 xi.wj + |wj|^2] as the product of the rows
    [(-2 xi, |xi|^2, 1)] and [(wj, 1, |wj|^2)], clamped at 0 before the
    root is taken. *)
Definition euclidean_dist_entry (xi wj : list F) : F :=
  let x1 := map (fun a => fmul a (fneg (fof_nat 2))) xi ++ [tsum (map square xi); fone] in
  let x2 := wj ++ [fone; tsum (map square wj)] in
  fsqrt (clamp_min (dot x1 x2) fzero).

(** The default compute mode, [use_mm_for_euclid_dist_if_necessary]: the
    matrix-product route is taken as soon as one of the two operands has
    more than 25 rows. *)
Definition uses_mm (x w : tensor3) : bool :=
  Nat.ltb 25 (seq_len x) || Nat.ltb 25 (seq_len w).

(** [torch.cdist(x, w, p=2)]. *)
Definition cdist (x w : tensor3) : result tensor3 :=
  if same_last_dim x w
  then Ok (pairwise (if uses_mm x w then euclidean_dist_entry else direct_dist_entry) x w)
  else Raise RuntimeError.

(** [torch.bmm(x, w.transpose(1, 2))]. *)
Definition bmm_transpose (x w : tensor3) : result tensor3 :=
  if same_last_dim x w then Ok (pairwise dot x w) else Raise RuntimeError.

(** [t.norm(p=2, dim=2)]. *)
Definition norm_dim2 (t : tensor3) : list (list F) := map (map norm2) t.

(** [-dp / (norm1 * norm2)], with [norm1] of shape [B x L x 1] and
    [norm2] of shape [B x 1 x V]. *)
Definition neg_div_norms (dp : tensor3) (norm1 norm2 : list (list F)) : tensor3 :=
  map2 (fun dpb nn =>
    map2 (fun dpl a =>
      map2 (fun p b => fdiv (fneg p) (fmul a b)) dpl (snd nn)) dpb (fst nn))
    dp (combine norm1 norm2).

Definition cos_distance (x w : tensor3) : result tensor3 :=
  dp <- bmm_transpose x w ;;
  let norm1 := norm_dim2 x in
  let norm2 := norm_dim2 w in
  Ok (neg_div_norms dp norm1 norm2).

(** The vocabulary axis of [directions].  [embeddings_weight] has shape
    [B x V x D] and [inputs_embeds.unsqueeze(2)] has shape
    [B x L x 1 x D]: broadcasting aligns the batch axis of the first with
    the sequence axis of the second, so the difference exists only when
    [B = 1], [L = B] or [L = 1]; in the last case it has shape
    [B x B x V x D] and [view(B, L, -1, D)] folds the extra copies into a
    vocabulary axis of size [B * V]. *)
Definition broadcast_vocab (x : tensor3) (w : tensor2) : result tensor2 :=
  let B := length x in
  let L := seq_len x in
  if Nat.eqb B 1 || Nat.eqb L B then Ok w
  else if Nat.eqb L 1 then Ok (concat (repeat w B))
  else Raise RuntimeError.

Definition shape3 (t : tensor3) : list (list nat) := map (map (@length F)) t.

Definition shape_eqb (s1 s2 : list (list nat)) : bool :=
  if list_eq_dec (list_eq_dec Nat.eq_dec) s1 s2 then true else false.

(** [v / (n + 1e-8)] for a vector [v] and its norm [n]. *)
Definition normalize (v : list F) (n : F) : list F :=
  map (fun a => fdiv a (fadd n fepsilon)) v.

(** The [grad_align] distance of one position [xi] with gradient [gi] to
    one vocabulary row [wj]. *)
Definition grad_align_entry (xi gi wj : list F) : F :=
  let direction := vsub wj xi in
  let normalized_direction := normalize direction (norm2 direction) in
  let normalized_grad := normalize (map fneg gi) (norm2 gi) in
  fneg (dot normalized_direction normalized_grad).

(** The gradient tensor is documented as the gradient with respect to
    [inputs_embeds], hence of its shape; another shape is a shape error. *)
Definition grad_align_distance (x : tensor3) (w : tensor2) (grads : tensor3)
  : result tensor3 :=
  vocab <- broadcast_vocab x w ;;
  if same_last_dim x (repeat_batch (length x) vocab) && shape_eqb (shape3 x) (shape3 grads)
  then Ok (map2 (fun xb gb =>
                   map2 (fun xi gi => map (grad_align_entry xi gi) vocab) xb gb)
                x grads)
  else Raise RuntimeError.

(** [row[unused_tokens] = v] on one row of the distance matrix. *)
Fixpoint fill_from (j : nat) (unused_tokens : list nat) (v : F) (row : list F) : list F :=
  match row with
  | [] => []
  | a :: row' =>
      (if existsb (Nat.eqb j) unused_tokens then v else a)
        :: fill_from (S j) unused_tokens v row'
  end.

(** [d[:, :, unused_tokens] = v]: an id outside the vocabulary axis is an
    index error. *)
Definition index_fill (d : tensor3) (unused_tokens : list nat) (v : F) : result tensor3 :=
  mapM (mapM (fun row =>
    if forallb (fun i => Nat.ltb i (length row)) unused_tokens
    then Ok (fill_from 0 unused_tokens v row)
    else Raise IndexError)) d.

(** The reduction behind [d.min(dim=2)], as the tensor library performs
    it on one row: the running minimum is replaced by a value that is not
    [>=] it, and a NaN ends the scan and is the result.  Among equal
    minima the first one is kept. *)
Fixpoint min_scan (row : list F) (i : nat) (best : F) (best_i : nat) : F * nat :=
  match row with
  | [] => (best, best_i)
  | v :: row' =>
      if negb (fge v best) then
        if fisnan v then (v, i) else min_scan row' (S i) v i
      else min_scan row' (S i) best best_i
  end.

Definition min_row (row : list F) : result (F * nat) :=
  match row with
  | [] => Raise IndexError
  | v0 :: _ => Ok (min_scan row 0 v0 0)
  end.

(** [d.min(dim=2)]: the values and the indices. *)
Definition min_dim2 (d : tensor3) : result (list (list F) * list (list nat)) :=
  m <- mapM (mapM min_row) d ;;
  Ok (map (map fst) m, map (map snd) m).

(** The distance matrix of the selected metric, before exclusion. *)
Definition distance_matrix (inputs_embeds : tensor3) (embeddings_weight : tensor2)
    (grads : option tensor3) (metric : string) : result tensor3 :=
  let embeddings_weight' := repeat_batch (length inputs_embeds) embeddings_weight in
  if String.eqb metric "l2" then cdist inputs_embeds embeddings_weight'
  else if String.eqb metric "cos" then cos_distance inputs_embeds embeddings_weight'
  else match String.eqb metric "grad_align", grads with
       | true, Some g => grad_align_distance inputs_embeds embeddings_weight g
       | _, _ => Raise AssertionError
       end.

Definition get_closest_tokens (inputs_embeds : tensor3) (unused_tokens : list nat)
    (embeddings_weight : tensor2) (grads : option tensor3) (metric : string)
  : result (tensor3 * list (list nat)) :=
  d <- distance_matrix inputs_embeds embeddings_weight grads metric ;;
  d <- index_fill d unused_tokens fsentinel ;;
  '(min_distances, token_indices) <- min_dim2 d ;;
  Ok (d, token_indices).

End NearestToken.

(** ** [get_perplexity] *)

Section Perplexity.
Context {F : Type} `{Scalar F}.

(** The Python objects that reach [get_closest_tokens]. *)
Inductive pyobj : Type :=
| PTensor3 (t : @tensor3 F)
| PTensor2 (t : @tensor2 F)
| PIds (l : list nat)
| PNone
| PStr (s : string).

(** A [def]'s parameter list: each name with its default, if any. *)
Definition params : Type := list (string * option pyobj).

(** Binding of positional arguments to parameters: an argument too many,
    or a parameter left without argument and without default, is a
    [TypeError] raised by the call itself. *)
Fixpoint bind_positional (ps : params) (args : list pyobj) : result (list pyobj) :=
  match ps, args with
  | [], [] => Ok []
  | [], _ :: _ => Raise TypeError
  | (_, Some default) :: ps', [] =>
      rest <- bind_positional ps' [] ;; Ok (default :: rest)
  | (_, None) :: _, [] => Raise TypeError
  | _ :: ps', a :: args' =>
      rest <- bind_positional ps' args' ;; Ok (a :: rest)
  end.

(** [def get_closest_tokens(inputs_embeds, unused_tokens,
    embeddings_weight, grads=None, metric='cos')]. *)
Definition get_closest_tokens_params : params :=
  [ ("inputs_embeds", None); ("unused_tokens", None); ("embeddings_weight", None);
    ("grads", Some PNone); ("metric", Some (PStr "cos")) ]%string.

(** A call of [get_closest_tokens] with positional arguments; an object of the wrong kind in a
    parameter is reported as a [TypeError] too. *)
Definition call_get_closest_tokens (args : list pyobj)
  : result (@tensor3 F * list (list nat)) :=
  bound <- bind_positional get_closest_tokens_params args ;;
  match bound with
  | [PTensor3 x; PIds u; PTensor2 w; PNone; PStr m] => get_closest_tokens x u w None m
  | [PTensor3 x; PIds u; PTensor2 w; PTensor3 g; PStr m] => get_closest_tokens x u w (Some g) m
  | _ => Raise TypeError
  end.

(** [F.softmax(., dim=2)], [.log_softmax(dim=2)] on one row, and the
    second language model (its logits for given input embeddings), all
    three external. *)
Variable softmax : list F -> list F.
Variable log_softmax : list F -> list F.

(** [a.bmm(m)] for one batch element: [a] is [L x V], [m] is [V x D]. *)
Definition matmul (a m : list (list F)) : result (list (list F)) :=
  if forallb (fun ai => Nat.eqb (length ai) (length m)) a
  then Ok (map (fun ai =>
             map (fun k => tsum (map2 (fun aj mj => fmul aj (nth k mj fzero)) ai m))
                 (seq 0 (length (hd [] m)))) a)
  else Raise RuntimeError.

Fixpoint mapM2 {A B C : Type} (f : A -> B -> result C) (l1 : list A) (l2 : list B)
  : result (list C) :=
  match l1, l2 with
  | a :: l1', b :: l2' => c <- f a b ;; cs <- mapM2 f l1' l2' ;; Ok (c :: cs)
  | _, _ => Ok []
  end.

(** [t.mean()] of a vector. *)
Definition mean (l : list F) : F := fdiv (tsum l) (fof_nat (length l)).

Definition get_perplexity (gpt2 : @tensor3 F -> @tensor3 F) (x_embeds : @tensor3 F)
    (bert_embeddings_weight gpt2_embeddings_weight : @tensor2 F) (c : F) : result F :=
  let gpt2_embeddings_weight' := repeat_batch (length x_embeds) gpt2_embeddings_weight in
  '(alpha, _) <- call_get_closest_tokens [PTensor3 x_embeds; PTensor2 bert_embeddings_weight] ;;
  let alpha := map (map (fun row => softmax (map (fun a => fdiv (fneg a) c) row))) alpha in
  gpt2_embeds <- mapM2 matmul alpha gpt2_embeddings_weight' ;;
  let out_gpt2 := gpt2 gpt2_embeds in
  let log_probs := map (map log_softmax) out_gpt2 in
  (* (log_probs[:, :-1, :] * alpha[:, 1:, :]).sum(dim=2) *)
  weighted <- mapM2 (fun lp al =>
                mapM2 (fun p a => pa <- elementwise fmul p a ;; Ok (tsum pa))
                      (removelast lp) (tl al))
              log_probs alpha ;;
  Ok (fneg (tsum (map mean weighted))).

End Perplexity.

(** ** In-place updates: a state that survives an exception *)

Definition ST (S A : Type) : Type := S -> S * result A.

Definition st_ret {S A : Type} (a : A) : ST S A := fun s => (s, Ok a).

Definition st_bind {S A B : Type} (c : ST S A) (k : A -> ST S B) : ST S B :=
  fun s => match c s with
           | (s', Ok a) => k a s'
           | (s', Raise e) => (s', Raise e)
           end.

(** A computation that reads no state. *)
Definition st_lift {S A : Type} (c : result A) : ST S A := fun s => (s, c).

Definition st_get {S : Type} : ST S S := fun s => (s, Ok s).
Definition st_put {S : Type} (s : S) : ST S unit := fun _ => (s, Ok tt).

Notation "x <~ c ;; k" := (st_bind c (fun x => k))
  (at level 61, c at next level, right associativity).

(** ** [fix_special_tokens] *)

Section SpecialTokens.
(** An embedding vector; [x_embeds] is the list of its sequences, each the
    list of its positions, and [bert_embeddings_weight] the list of the
    vocabulary's vectors, all of one embedding dimension. *)
Variable A : Type.

(** [constants.py] is not part of the sources: the three token ids are
    parameters. *)
Variables BERT_CLS_TOKEN BERT_SEP_TOKEN BERT_PAD_TOKEN : nat.

Definition embeds : Type := list (list A).

(** [bert_embeddings_weight[token]]. *)
Definition embedding (w : list A) (token : nat) : result A :=
  match nth_error w token with
  | Some v => Ok v
  | None => Raise IndexError
  end.

(** Python's index normalisation on an axis of size [n]. *)
Definition py_index (n : nat) (i : Z) : result nat :=
  if (0 <=? i)%Z && (i <? Z.of_nat n)%Z then Ok (Z.to_nat i)
  else if (- Z.of_nat n <=? i)%Z && (i <? 0)%Z then Ok (Z.to_nat (Z.of_nat n + i))
  else Raise IndexError.

(** The first position of the slice [p:] on an axis of size [n]. *)
Definition slice_start (n : nat) (p : Z) : nat :=
  if (p <? 0)%Z then Z.to_nat (Z.max (Z.of_nat n + p) 0)
  else Nat.min (Z.to_nat p) n.

Fixpoint set_nth {B : Type} (i : nat) (v : B) (l : list B) : list B :=
  match l, i with
  | [], _ => []
  | _ :: l', 0 => v :: l'
  | a :: l', S i' => a :: set_nth i' v l'
  end.

(** [row[s:] = v]. *)
Definition set_from (s : nat) (v : A) (row : list A) : list A :=
  firstn s row ++ repeat v (length row - s).

(** [x_embeds.data[:, i] = v]: every sequence must have position [i]. *)
Definition assign_column (i : Z) (v : A) : ST embeds unit :=
  fun x =>
    match mapM (fun row => k <- py_index (length row) i ;; Ok (set_nth k v row)) x with
    | Ok x' => (x', Ok tt)
    | Raise e => (x, Raise e)
    end.

(** [x_embeds.data[sen_id, p:] = v]. *)
Definition assign_tail (sen_id : nat) (p : Z) (v : A) : ST embeds unit :=
  fun x =>
    match nth_error x sen_id with
    | Some row => (set_nth sen_id (set_from (slice_start (length row) p) v row) x, Ok tt)
    | None => (x, Raise IndexError)
    end.

(** [x_embeds.data[sen_id, i] = v]. *)
Definition assign_position (sen_id : nat) (i : Z) (v : A) : ST embeds unit :=
  fun x =>
    match nth_error x sen_id with
    | Some row =>
        match py_index (length row) i with
        | Ok k => (set_nth sen_id (set_nth k v row) x, Ok tt)
        | Raise e => (x, Raise e)
        end
    | None => (x, Raise IndexError)
    end.

(** [pads[sen_id]]. *)
Definition pad_boundary (pads : list Z) (sen_id : nat) : result Z :=
  match nth_error pads sen_id with
  | Some p => Ok p
  | None => Raise IndexError
  end.

(** The body of [for sen_id in range(x_embeds.shape[0])], over the
    remaining ids. *)
Fixpoint pad_loop (w : list A) (pads : list Z) (sen_ids : list nat) : ST embeds unit :=
  match sen_ids with
  | [] => st_ret tt
  | sen_id :: rest =>
      pad <~ st_lift (embedding w BERT_PAD_TOKEN) ;;
      p <~ st_lift (pad_boundary pads sen_id) ;;
      _ <~ assign_tail sen_id p pad ;;
      sep <~ st_lift (embedding w BERT_SEP_TOKEN) ;;
      p' <~ st_lift (pad_boundary pads sen_id) ;;
      _ <~ assign_position sen_id (p' - 1) sep ;;
      pad_loop w pads rest
  end.

(** The state is the tensor behind [x_embeds], updated in place; the
    function returns that same tensor, so its value is [tt]. *)
Definition fix_special_tokens (bert_embeddings_weight : list A) (pads : option (list Z))
  : ST embeds unit :=
  cls <~ st_lift (embedding bert_embeddings_weight BERT_CLS_TOKEN) ;;
  _ <~ assign_column 0 cls ;;
  x_embeds <~ st_get ;;
  match pads with
  | Some pads => pad_loop bert_embeddings_weight pads (seq 0 (length x_embeds))
  | None =>
      if Nat.eqb (length x_embeds) 1 then
        sep <~ st_lift (embedding bert_embeddings_weight BERT_SEP_TOKEN) ;;
        assign_column (-1) sep
      else st_ret tt
  end.

End SpecialTokens.

(** ** [remove_padding] *)

Section RemovePadding.
Variable BERT_SEP_TOKEN : nat.

(** [for i in range(ids.shape[0] - 1, -1, -1)], with [n] iterations left:
    the next index is [n - 1]. *)
Fixpoint scan_back (ids : list nat) (n : nat) : list nat :=
  match n with
  | 0 => ids
  | S i => if Nat.eqb (nth i ids 0) BERT_SEP_TOKEN then firstn (i + 1) ids
           else scan_back ids i
  end.

(** [tokenizer] stands for the external [tokenizer.decode]. *)
Definition remove_padding (tokenizer : list nat -> string) (ids : list nat) : string :=
  tokenizer (scan_back ids (length ids)).

End RemovePadding.

(** ** [get_closest_tokens] on a store of tensors

    The same function with its tensors as objects of a store: an argument
    is the address of a tensor, an operation of the tensor library that
    returns a new tensor allocates it, and the one in-place assignment
    overwrites the object its target names. *)

Notation "' p <~ c ;; k" := (st_bind c (fun x => let 'p := x in k))
  (at level 61, p pattern, c at next level, right associativity).

Section Store.
Context {F : Type} `{Scalar F}.

Inductive tval : Type :=
| T2 (t : @tensor2 F)
| T3 (t : @tensor3 F)
| TValues (t : list (list F))
| TIndices (t : list (list nat)).

Definition store : Type := list tval.

Definition alloc (v : tval) : ST store nat :=
  fun h => (h ++ [v], Ok (length h)).

Definition load2 (l : nat) : ST store (@tensor2 F) :=
  fun h => match nth_error h l with
           | Some (T2 t) => (h, Ok t)
           | _ => (h, Raise TypeError)
           end.

Definition load3 (l : nat) : ST store (@tensor3 F) :=
  fun h => match nth_error h l with
           | Some (T3 t) => (h, Ok t)
           | _ => (h, Raise TypeError)
           end.

Definition overwrite (l : nat) (v : tval) : ST store unit :=
  fun h => (set_nth l v h, Ok tt).

(** [t.clone()]. *)
Definition clone (l : nat) : ST store nat :=
  t <~ load3 l ;; alloc (T3 t).

(** [d[:, :, unused_tokens] = v], in place. *)
Definition index_fill_ (d : nat) (unused_tokens : list nat) (v : F) : ST store unit :=
  t <~ load3 d ;;
  t' <~ st_lift (index_fill t unused_tokens v) ;;
  overwrite d (T3 t').

Definition get_closest_tokens_st (inputs_embeds : nat) (unused_tokens : list nat)
    (embeddings_weight : nat) (grads : option nat) (metric : string)
  : ST store (nat * nat) :=
  x <~ load3 inputs_embeds ;;
  w <~ load2 embeddings_weight ;;
  (* the local name embeddings_weight is rebound to the repeated tensor *)
  embeddings_weight' <~ alloc (T3 (repeat_batch (length x) w)) ;;
  d <~ (if String.eqb metric "l2" then
          ew <~ load3 embeddings_weight' ;;
          t <~ st_lift (cdist x ew) ;; alloc (T3 t)
        else if String.eqb metric "cos" then
          ew <~ load3 embeddings_weight' ;;
          t <~ st_lift (cos_distance x ew) ;; alloc (T3 t)
        else match String.eqb metric "grad_align", grads with
             | true, Some g =>
                 gt <~ load3 g ;;
                 t <~ st_lift (grad_align_distance x w gt) ;; alloc (T3 t)
             | _, _ => st_lift (Raise AssertionError)
             end) ;;
  d <~ clone d ;;
  _ <~ index_fill_ d unused_tokens fsentinel ;;
  t <~ load3 d ;;
  '(values, indices) <~ st_lift (min_dim2 t) ;;
  min_distances <~ alloc (TValues values) ;;
  token_indices <~ alloc (TIndices indices) ;;
  st_ret (d, token_indices).

End Store.

(** ** The arithmetic of the code, and real arithmetic *)

(** IEEE-754 binary floating point with [prec] bits of mantissa and
    exponent bound [emax], round to nearest even. *)
Section IEEE.
Variables prec emax : Z.

Definition sf_of_Z (z : Z) : spec_float := binary_normalize prec emax z 0 false.

Definition sf_isnan (x : spec_float) : bool :=
  match x with S754_nan => true | _ => false end.

Definition ieee : Scalar spec_float := {|
  fzero := S754_zero false;
  fone := sf_of_Z 1;
  fsentinel := sf_of_Z 1000000000;
  fepsilon := SFdiv prec emax (sf_of_Z 1) (sf_of_Z 100000000);
  fadd := SFadd prec emax;
  fsub := SFsub prec emax;
  fmul := SFmul prec emax;
  fdiv := SFdiv prec emax;
  fneg := SFopp;
  fabs := SFabs;
  fsqrt := SFsqrt prec emax;
  fof_nat := fun n => sf_of_Z (Z.of_nat n);
  fge := fun a b => SFleb b a;
  fisnan := sf_isnan
|}.
End IEEE.

(** [torch.float32]. *)
#[export] Instance float32 : Scalar spec_float := ieee 24 128.

(** Real arithmetic: no rounding, no overflow, no NaN.  It is not the
    arithmetic of the code, which computes in floating point; it is used
    for the symmetry of [grad_dist] only, to show that the symmetry does
    not rest on rounding. *)
#[export] Instance exact : Scalar R := {|
  fzero := 0%R;
  fone := 1%R;
  fsentinel := IZR 1000000000;
  fepsilon := (/ IZR 100000000)%R;
  fadd := Rplus;
  fsub := Rminus;
  fmul := Rmult;
  fdiv := Rdiv;
  fneg := Ropp;
  fabs := Rabs;
  fsqrt := sqrt;
  fof_nat := INR;
  fge := fun a b => if Rle_dec b a then true else false;
  fisnan := fun _ => false
|}.

(** Decimal literals of the examples, as binary32 values. *)
Definition f32 (z : Z) : spec_float := sf_of_Z 24 128 z.

(** ** [compute_grads] and [get_reconstruction_loss] *)

Section ReconstructionLoss.
Context {F : Type} `{Scalar F}.

(** The language model and automatic differentiation are external.  What
    [torch.autograd.grad(outs.loss, model.parameters(), allow_unused=True)]
    returns for a model, input embeddings and labels is a parameter: one
    gradient per model parameter, absent for a parameter the loss does not
    depend on. *)
Variables Model Labels : Type.
Variable autograd_grad : Model -> @tensor3 F -> Labels -> list (option (list F)).

(** [create_graph] decides whether the gradients can be differentiated
    again, not their values. *)
Definition compute_grads (model : Model) (x_embeds : @tensor3 F) (y_labels : Labels)
    (create_graph : bool) : list (option (list F)) :=
  autograd_grad model x_embeds y_labels.

Definition get_reconstruction_loss (model : Model) (x_embeds : @tensor3 F)
    (y_labels : Labels) (true_grads : list (option (list F))) (args : Args)
    (create_graph : bool) : result pynum :=
  let grads := compute_grads model x_embeds y_labels create_graph in
  grad_dist true_grads grads args.

End ReconstructionLoss.

(** * Properties *)

(** ** [remove_padding] *)

Section RemovePaddingFacts.
Variable SEP : nat.

(** Below the last occurrence of [SEP] nothing is scanned: the sequence
    is cut right after it. *)
Lemma scan_back_last_occurrence (post pre rest : list nat) :
  ~ In SEP post ->
  scan_back SEP ((pre ++ SEP :: post) ++ rest) (length (pre ++ SEP :: post))
  = pre ++ [SEP].
Proof.
  revert rest.
  induction post as [| a post IH] using rev_ind; intros rest Hnot.
  - rewrite length_app, Nat.add_comm. cbn [length Nat.add scan_back].
    rewrite <- app_assoc. cbn [app].
    rewrite nth_middle, Nat.eqb_refl.
    replace (length pre + 1) with (length (pre ++ [SEP]))
      by (rewrite length_app; reflexivity).
    change (pre ++ SEP :: rest) with (pre ++ [SEP] ++ rest).
    rewrite app_assoc, firstn_app, firstn_all, Nat.sub_diag. cbn [firstn].
    apply app_nil_r.
  - assert (Ha : a <> SEP) by (intro; subst; apply Hnot, in_or_app; right; left; reflexivity).
    assert (Hpost : ~ In SEP post) by (intro; apply Hnot, in_or_app; left; assumption).
    replace (pre ++ SEP :: post ++ [a]) with ((pre ++ SEP :: post) ++ [a])
      by (rewrite <- app_assoc; reflexivity).
    rewrite (length_app _ [a]), Nat.add_comm. cbn [length Nat.add scan_back].
    rewrite <- (app_assoc _ [a] rest). cbn [app].
    rewrite nth_middle.
    destruct (Nat.eqb_spec a SEP) as [E | _]; [contradiction |].
    apply IH; assumption.
Qed.

Lemma scan_back_no_occurrence (l rest : list nat) :
  ~ In SEP l -> scan_back SEP (l ++ rest) (length l) = l ++ rest.
Proof.
  revert rest.
  induction l as [| a l IH] using rev_ind; intros rest Hnot; [reflexivity |].
  rewrite length_app, Nat.add_comm. cbn [length Nat.add scan_back].
  rewrite <- app_assoc. cbn [app]. rewrite nth_middle.
  destruct (Nat.eqb_spec a SEP) as [E | _].
  - exfalso. apply Hnot, in_or_app. right. left. assumption.
  - change (l ++ a :: rest) with (l ++ [a] ++ rest).
    rewrite <- (IH (a :: rest)) at 2.
    + reflexivity.
    + intro Hin. apply Hnot, in_or_app. left. assumption.
Qed.
End RemovePaddingFacts.

(** C8.  [remove_padding] cuts the id sequence right after the occurrence
    of the "end" id that a backward scan meets first (its last occurrence)
    and decodes what is left; without any occurrence it decodes the whole
    sequence; on [[5; 7; END; 9; 9]], with [END] an id other than 9, it
    decodes [[5; 7; END]]. *)
Theorem remove_padding_truncates_after_last_end
    (END : nat) (tokenizer : list nat -> string) :
  (forall pre post, ~ In END post ->
     remove_padding END tokenizer (pre ++ END :: post) = tokenizer (pre ++ [END]))
  /\ (forall ids, ~ In END ids -> remove_padding END tokenizer ids = tokenizer ids)
  /\ (END <> 9 ->
      remove_padding END tokenizer [5; 7; END; 9; 9] = tokenizer [5; 7; END]).
Proof.
  assert (Hcut : forall pre post, ~ In END post ->
     remove_padding END tokenizer (pre ++ END :: post) = tokenizer (pre ++ [END])).
  { intros pre post Hnot. unfold remove_padding. f_equal.
    rewrite <- (app_nil_r (pre ++ END :: post)) at 1.
    apply scan_back_last_occurrence; assumption. }
  split; [exact Hcut | split].
  - intros ids Hnot. unfold remove_padding. f_equal.
    rewrite <- (app_nil_r ids) at 1.
    rewrite scan_back_no_occurrence by assumption. apply app_nil_r.
  - intros Hne. apply (Hcut [5; 7] [9; 9]).
    cbn [In]. intros [E | [E | []]]; apply Hne; symmetry; exact E.
Qed.

(** A tokenizer for the examples: one character per id. *)
Definition ascii_tokenizer (ids : list nat) : string :=
  string_of_list_ascii (map Ascii.ascii_of_nat ids).

Lemma remove_padding_truncates_after_last_end_witness :
  remove_padding 102 ascii_tokenizer [5; 7; 102; 9; 9] = ascii_tokenizer [5; 7; 102]
  /\ remove_padding 102 ascii_tokenizer [5; 7; 9; 9] = ascii_tokenizer [5; 7; 9; 9]
  /\ remove_padding 102 ascii_tokenizer [102; 7; 102; 9] = ascii_tokenizer [102; 7; 102].
Proof.
  destruct (remove_padding_truncates_after_last_end 102 ascii_tokenizer)
    as (Hcut & Hfull & Hex).
  split; [apply Hex; discriminate | split].
  - apply Hfull. cbn [In]. intros [E | [E | [E | [E | []]]]]; discriminate.
  - apply (Hcut [102; 7] [9]). cbn [In]. intros [E | []]; discriminate.
Defined.

(** ** [get_perplexity] *)

(** C1.  [get_perplexity] calls [get_closest_tokens] with two positional
    arguments, which leaves the required parameter [embeddings_weight]
    unbound: the call raises [TypeError] for every input, and no
    perplexity is ever computed. *)
Theorem get_perplexity_always_raises
    {F : Type} `{Scalar F} (softmax log_softmax : list F -> list F)
    (gpt2 : tensor3 -> tensor3) (x_embeds : tensor3)
    (bert_embeddings_weight gpt2_embeddings_weight : tensor2) (c : F) :
  get_perplexity softmax log_softmax gpt2 x_embeds
    bert_embeddings_weight gpt2_embeddings_weight c = Raise TypeError.
Proof. reflexivity. Qed.

(** ** [grad_dist] *)

Section GradDistFacts.
Context {F : Type} `{Scalar F}.

Definition both_present (p : option (list F) * option (list F)) : Prop :=
  exists g1 g2, p = (Some g1, Some g2).

Definition one_absent (p : option (list F) * option (list F)) : Prop :=
  fst p = None \/ snd p = None.

Lemma one_absent_not_both (p : option (list F) * option (list F)) :
  one_absent p <-> ~ both_present p.
Proof.
  destruct p as [[g1 |] [g2 |]]; unfold one_absent, both_present; cbn; split;
    try (intros [E | E]; discriminate);
    try (intros _ (a & b & E); discriminate);
    try (intros _; (left; reflexivity) || (right; reflexivity)).
  intros Hn. exfalso. apply Hn. eauto.
Qed.

(** Pairs with an absent side leave both accumulators as they are. *)
Lemma grad_dist_loop_skips (args : Args) pairs (ret : pynum) (n_g : nat) :
  Forall one_absent pairs ->
  grad_dist_loop args pairs ret n_g = Ok (ret, n_g).
Proof.
  induction 1 as [| [[g1 |] [g2 |]] pairs Hp _ IH]; cbn [grad_dist_loop]; auto.
  destruct Hp as [E | E]; discriminate.
Qed.

Definition known_loss (s : string) : bool :=
  String.eqb s "cos" || String.eqb s "dlg" || String.eqb s "tag".

Lemma grad_term_unknown (args : Args) (g1 g2 : list F) :
  known_loss (loss args) = false -> grad_term args g1 g2 = Raise AssertionError.
Proof.
  unfold known_loss, grad_term. intros Hk.
  apply orb_false_elim in Hk as [Hk Htag].
  apply orb_false_elim in Hk as [Hcos Hdlg].
  rewrite Hcos, Hdlg, Htag. reflexivity.
Qed.

(** With an unrecognised metric the loop fails at the first pair whose
    two sides are present. *)
Lemma grad_dist_loop_unknown (args : Args) pairs (ret : pynum) (n_g : nat) :
  known_loss (loss args) = false ->
  Exists both_present pairs ->
  grad_dist_loop args pairs ret n_g = Raise AssertionError.
Proof.
  intros Hk. induction pairs as [| [[g1 |] [g2 |]] pairs IH]; intros Hex;
    inversion Hex as [? ? Hp | ? ? Hrest]; subst; cbn [grad_dist_loop];
    try (destruct Hp as (a & b & E); discriminate);
    try (apply IH; assumption);
    rewrite grad_term_unknown by assumption; reflexivity.
Qed.
End GradDistFacts.

(** C6.  When every zipped pair has an absent side, [grad_dist] returns the
    Python float [0.0] it started from under ['dlg'] and ['tag'], and
    under ['cos'] divides that float by the integer count [0], which raises
    a division by zero. *)
Theorem grad_dist_all_absent
    {F : Type} `{Scalar F} (grads1 grads2 : list (option (list F))) (factor : F) :
  Forall one_absent (combine grads1 grads2) ->
  grad_dist grads1 grads2 {| loss := "dlg"; tag_factor := factor |} = Ok (PyFloat fzero)
  /\ grad_dist grads1 grads2 {| loss := "tag"; tag_factor := factor |} = Ok (PyFloat fzero)
  /\ grad_dist grads1 grads2 {| loss := "cos"; tag_factor := factor |}
     = Raise ZeroDivisionError.
Proof.
  intros Habs. unfold grad_dist.
  rewrite !grad_dist_loop_skips by assumption.
  repeat split; reflexivity.
Qed.

Lemma grad_dist_all_absent_witness :
  let grads1 := [None; Some [f32 1; f32 2]; None] in
  let grads2 := [Some [f32 3]; None; None] in
  grad_dist grads1 grads2 {| loss := "dlg"; tag_factor := f32 1 |} = Ok (PyFloat fzero)
  /\ grad_dist grads1 grads2 {| loss := "tag"; tag_factor := f32 1 |} = Ok (PyFloat fzero)
  /\ grad_dist grads1 grads2 {| loss := "cos"; tag_factor := f32 1 |}
     = Raise ZeroDivisionError.
Proof.
  apply (grad_dist_all_absent
           [None; Some [f32 1; f32 2]; None] [Some [f32 3]; None; None] (f32 1)).
  repeat constructor; (left; reflexivity) || (right; reflexivity).
Defined.

(** ** Failure modes *)

Lemma bind_raise_inv {A B : Type} (c : result A) (k : A -> result B) (e : exn) :
  bind c k = Raise e -> c = Raise e \/ exists a, c = Ok a /\ k a = Raise e.
Proof.
  destruct c as [a | e']; cbn; intros E; [right; eauto | left].
  inversion E. reflexivity.
Qed.

Lemma bind_ok_inv {A B : Type} (c : result A) (k : A -> result B) (b : B) :
  bind c k = Ok b -> exists a, c = Ok a /\ k a = Ok b.
Proof. destruct c as [a | e']; cbn; intros E; [eauto | discriminate]. Qed.

Lemma mapM_raise_inv {A B : Type} (f : A -> result B) (l : list A) (e : exn) :
  mapM f l = Raise e -> exists a, In a l /\ f a = Raise e.
Proof.
  induction l as [| a l IH]; cbn [mapM]; [discriminate |].
  intros E. apply bind_raise_inv in E as [E | (b & _ & E)].
  - exists a. split; [left; reflexivity | exact E].
  - apply bind_raise_inv in E as [E | (bs & _ & E)]; [| discriminate].
    destruct (IH E) as (a' & Hin & Ha'). exists a'. split; [right |]; assumption.
Qed.

Section FailureFacts.
Context {F : Type} `{Scalar F}.

Lemma elementwise_raises (op : F -> F -> F) (a b : list F) (e : exn) :
  elementwise op a b = Raise e -> e = RuntimeError.
Proof.
  unfold elementwise. destruct (Nat.eqb _ _); [discriminate |].
  destruct a as [| a0 [| a1 a]], b as [| b0 [| b1 b]]; intros E; inversion E; reflexivity.
Qed.

Lemma grad_term_assertion (args : Args) (g1 g2 : list F) :
  grad_term args g1 g2 = Raise AssertionError -> known_loss (loss args) = false.
Proof.
  unfold grad_term, known_loss.
  destruct (String.eqb (loss args) "cos"); [| destruct (String.eqb (loss args) "dlg");
    [| destruct (String.eqb (loss args) "tag"); [| reflexivity]]];
  intros E;
  repeat (apply bind_raise_inv in E as [E | (? & _ & E)];
          [apply elementwise_raises in E; discriminate |]);
  discriminate.
Qed.

Lemma grad_dist_loop_assertion (args : Args) pairs (ret : pynum) (n_g : nat) :
  grad_dist_loop args pairs ret n_g = Raise AssertionError ->
  known_loss (loss args) = false /\ Exists both_present pairs.
Proof.
  revert ret n_g.
  induction pairs as [| [[g1 |] [g2 |]] pairs IH]; intros ret n_g; cbn [grad_dist_loop];
    [discriminate | | | |];
    try (intros E; destruct (IH _ _ E) as [Hk Hex]; split; [| apply Exists_cons_tl]; assumption).
  intros E. apply bind_raise_inv in E as [E | (t & _ & E)].
  - split; [eapply grad_term_assertion; eassumption |].
    apply Exists_cons_hd. exists g1, g2. reflexivity.
  - destruct (IH _ _ E) as [Hk Hex]. split; [| apply Exists_cons_tl]; assumption.
Qed.

Lemma grad_dist_assertion (grads1 grads2 : list (option (list F))) (args : Args) :
  grad_dist grads1 grads2 args = Raise AssertionError <->
  known_loss (loss args) = false /\ Exists both_present (combine grads1 grads2).
Proof.
  unfold grad_dist. split.
  - intros E. apply bind_raise_inv in E as [E | ([ret n_g] & _ & E)].
    + eapply grad_dist_loop_assertion; eassumption.
    + destruct (String.eqb (loss args) "cos"); [| discriminate].
      destruct ret; cbn in E; [destruct (Nat.eqb n_g 0) |]; discriminate.
  - intros [Hk Hex]. rewrite grad_dist_loop_unknown by assumption. reflexivity.
Qed.

Definition known_metric (s : string) : bool :=
  String.eqb s "l2" || String.eqb s "cos" || String.eqb s "grad_align".

Lemma distance_matrix_assertion (x : tensor3) (w : tensor2) (g : option tensor3)
    (metric : string) :
  distance_matrix x w g metric = Raise AssertionError <->
  known_metric metric = false \/ (metric = "grad_align"%string /\ g = None).
Proof.
  unfold distance_matrix, known_metric, cdist, cos_distance, bmm_transpose,
    grad_align_distance, broadcast_vocab.
  destruct (String.eqb_spec metric "l2") as [-> | Hl2]; cbn [orb].
  { destruct (same_last_dim _ _); split; try discriminate;
      intros [E | [E _]]; discriminate. }
  destruct (String.eqb_spec metric "cos") as [-> | Hcos]; cbn [orb].
  { destruct (same_last_dim _ _); cbn [bind]; split; try discriminate;
      intros [E | [E _]]; discriminate. }
  destruct (String.eqb_spec metric "grad_align") as [-> | Hga].
  - destruct g as [g |].
    + split; [| intros [E | [_ E]]; discriminate].
      destruct (_ || _); cbn [bind];
        [| destruct (Nat.eqb (seq_len x) 1); cbn [bind]];
        try destruct (_ && _); discriminate.
    + split; [intros _; right; split; reflexivity | reflexivity].
  - split; [intros _; left; reflexivity | reflexivity].
Qed.

Lemma index_fill_raises (d : tensor3) (unused_tokens : list nat) (v : F) (e : exn) :
  index_fill d unused_tokens v = Raise e -> e = IndexError.
Proof.
  unfold index_fill. intros E.
  apply mapM_raise_inv in E as (db & _ & E).
  apply mapM_raise_inv in E as (row & _ & E).
  destruct (forallb _ _); inversion E; reflexivity.
Qed.

Lemma min_dim2_raises (d : tensor3) (e : exn) :
  min_dim2 d = Raise e -> e = IndexError.
Proof.
  unfold min_dim2. intros E.
  apply bind_raise_inv in E as [E | (? & _ & E)]; [| discriminate].
  apply mapM_raise_inv in E as (db & _ & E).
  apply mapM_raise_inv in E as (row & _ & E).
  destruct row; inversion E; reflexivity.
Qed.

Lemma get_closest_tokens_assertion (x : tensor3) (unused_tokens : list nat)
    (w : tensor2) (g : option tensor3) (metric : string) :
  get_closest_tokens x unused_tokens w g metric = Raise AssertionError <->
  known_metric metric = false \/ (metric = "grad_align"%string /\ g = None).
Proof.
  rewrite <- distance_matrix_assertion. unfold get_closest_tokens. split.
  - intros E. apply bind_raise_inv in E as [E | (d & _ & E)]; [exact E |].
    apply bind_raise_inv in E as [E | (d' & _ & E)].
    + apply index_fill_raises in E. discriminate.
    + apply bind_raise_inv in E as [E | ([vs ids] & _ & E)]; [| discriminate].
      apply min_dim2_raises in E. discriminate.
  - intros E. rewrite E. reflexivity.
Qed.
End FailureFacts.

(** C5, as the code has it.  An assertion failure is raised by
    [get_closest_tokens] exactly for a metric name outside ['l2'], ['cos'],
    ['grad_align'] or for ['grad_align'] without a gradient tensor, and by
    [grad_dist] exactly when the metric name is outside ['cos'], ['dlg'],
    ['tag'] and some zipped pair has both sides present; with such a name
    and no such pair [grad_dist] returns [0.0]; and ['cos'] without a
    present pair fails with a division by zero, a failure of another
    kind. *)
Theorem assertion_failures {F : Type} `{Scalar F} :
  (forall (x : tensor3) unused_tokens (w : tensor2) g metric,
     get_closest_tokens x unused_tokens w g metric = Raise AssertionError <->
     known_metric metric = false \/ (metric = "grad_align"%string /\ g = None))
  /\ (forall grads1 grads2 (args : Args),
        grad_dist grads1 grads2 args = Raise AssertionError <->
        known_loss (loss args) = false /\ Exists both_present (combine grads1 grads2))
  /\ (forall grads1 grads2 (args : Args),
        known_loss (loss args) = false ->
        Forall one_absent (combine grads1 grads2) ->
        grad_dist grads1 grads2 args = Ok (PyFloat fzero))
  /\ (forall grads1 grads2 (factor : F),
        Forall one_absent (combine grads1 grads2) ->
        grad_dist grads1 grads2 {| loss := "cos"; tag_factor := factor |}
        = Raise ZeroDivisionError).
Proof.
  split; [exact get_closest_tokens_assertion | split; [exact grad_dist_assertion | split]].
  - intros grads1 grads2 args Hk Habs. unfold grad_dist.
    rewrite grad_dist_loop_skips by assumption. cbn [bind].
    unfold known_loss in Hk. apply orb_false_elim in Hk as [Hk _].
    apply orb_false_elim in Hk as [Hcos _]. rewrite Hcos. reflexivity.
  - intros grads1 grads2 factor Habs. unfold grad_dist.
    rewrite grad_dist_loop_skips by assumption. reflexivity.
Qed.

Lemma assertion_failures_witness :
  get_closest_tokens [[[f32 1]]] [] [[f32 1]] None "l1" = Raise AssertionError
  /\ get_closest_tokens [[[f32 1]]] [] [[f32 1]] None "grad_align" = Raise AssertionError
  /\ grad_dist [None; Some [f32 1]] [None; Some [f32 2]]
       {| loss := "l1"; tag_factor := f32 1 |} = Raise AssertionError
  /\ grad_dist [None; Some [f32 1]] [Some [f32 2]; None]
       {| loss := "l1"; tag_factor := f32 1 |} = Ok (PyFloat fzero)
  /\ grad_dist [None; Some [f32 1]] [Some [f32 2]; None]
       {| loss := "cos"; tag_factor := f32 1 |} = Raise ZeroDivisionError.
Proof.
  destruct (@assertion_failures spec_float float32) as (Hm & Hg & Hz & Hd).
  split; [apply Hm; left; reflexivity |].
  split; [apply Hm; right; split; reflexivity |].
  split; [apply Hg; split; [reflexivity |];
          apply Exists_cons_tl, Exists_cons_hd; exists [f32 1], [f32 2]; reflexivity |].
  split; [apply Hz; [reflexivity |] | apply Hd];
    repeat constructor; (left; reflexivity) || (right; reflexivity).
Defined.

(** C5, as the claim has it, fails: with an unrecognised metric name and no
    pair whose two sides are present, [grad_dist] returns [0.0]; the
    assertion is never reached. *)
Lemma grad_dist_unknown_metric_returns :
  grad_dist (F := spec_float) [] [] {| loss := "l1"; tag_factor := f32 1 |}
  = Ok (PyFloat fzero)
  /\ grad_dist [None; Some [f32 1]] [Some [f32 2]; None]
       {| loss := "l1"; tag_factor := f32 1 |} = Ok (PyFloat fzero).
Proof. split; reflexivity. Qed.

(** ** Symmetry of [grad_dist] *)

(** What the symmetry rests on: multiplication commutes, and swapping the
    operands of a subtraction changes neither the square nor the absolute
    value of the difference.  Both arithmetics have these properties. *)
Class SymmetricOps (F : Type) `{Scalar F} : Prop := {
  fmul_comm : forall a b : F, fmul a b = fmul b a;
  square_fsub_swap : forall a b : F, square (fsub a b) = square (fsub b a);
  fabs_fsub_swap : forall a b : F, fabs (fsub a b) = fabs (fsub b a)
}.

Section IEEEFacts.
Variables prec emax : Z.

Lemma SFmul_comm (a b : spec_float) : SFmul prec emax a b = SFmul prec emax b a.
Proof.
  destruct a as [sa | sa | | sa ma ea], b as [sb | sb | | sb mb eb]; cbn [SFmul];
    try reflexivity; try (rewrite (xorb_comm sa sb); reflexivity).
  rewrite (xorb_comm sa sb), (Pos.mul_comm ma mb), (Z.add_comm ea eb). reflexivity.
Qed.

(** Rounding treats the sign as a label: it never reads it. *)
Lemma binary_round_aux_abs (s s' : bool) (m e : Z) (l : location) :
  SFabs (binary_round_aux prec emax s m e l) = SFabs (binary_round_aux prec emax s' m e l).
Proof.
  unfold binary_round_aux.
  destruct (shr_fexp prec emax m e l) as [mrs' e'].
  destruct (shr_fexp prec emax _ e' loc_Exact) as [mrs'' e''].
  destruct (shr_m mrs''); try reflexivity.
  destruct (Z.leb _ _); reflexivity.
Qed.

Lemma binary_normalize_abs_opp (m e : Z) :
  SFabs (binary_normalize prec emax (- m) e false)
  = SFabs (binary_normalize prec emax m e false).
Proof.
  destruct m; cbn [Z.opp binary_normalize]; try reflexivity;
    unfold binary_round; destruct (shl_align _ _ _); apply binary_round_aux_abs.
Qed.

Lemma SFsub_abs_swap (a b : spec_float) :
  SFabs (SFsub prec emax a b) = SFabs (SFsub prec emax b a).
Proof.
  destruct a as [sa | sa | | sa ma ea], b as [sb | sb | | sb mb eb]; cbn [SFsub SFabs];
    try reflexivity; try (destruct sa, sb; reflexivity).
  rewrite (Z.min_comm eb ea), <- binary_normalize_abs_opp.
  f_equal. f_equal. lia.
Qed.

Lemma SFmul_abs (a : spec_float) :
  SFmul prec emax a a = SFmul prec emax (SFabs a) (SFabs a).
Proof.
  destruct a as [s | s | | s m e]; cbn [SFmul SFabs]; try reflexivity;
    destruct s; reflexivity.
Qed.

Lemma ieee_symmetric_ops : @SymmetricOps spec_float (ieee prec emax).
Proof.
  split; cbn.
  - apply SFmul_comm.
  - intros a b. unfold square. cbn.
    rewrite SFmul_abs, SFsub_abs_swap, <- SFmul_abs. reflexivity.
  - apply SFsub_abs_swap.
Qed.
End IEEEFacts.

#[export] Instance float32_symmetric_ops : @SymmetricOps spec_float float32 :=
  ieee_symmetric_ops 24 128.

#[export] Instance exact_symmetric_ops : @SymmetricOps R exact.
Proof.
  split; cbn; intros a b.
  - apply Rmult_comm.
  - unfold square. cbn. ring.
  - apply Rabs_minus_sym.
Qed.

Section SymmetryFacts.
Context {F : Type} `{SymmetricOps F}.

Lemma map2_comm {A B : Type} (f : A -> A -> B) (l1 l2 : list A) :
  (forall a b, f a b = f b a) -> map2 f l1 l2 = map2 f l2 l1.
Proof.
  intros Hf. revert l2.
  induction l1 as [| a l1 IH]; intros [| b l2]; cbn [map2]; try reflexivity.
  rewrite Hf, IH. reflexivity.
Qed.

Lemma map_map2 {A B C D : Type} (g : C -> D) (f : A -> B -> C) l1 l2 :
  map g (map2 f l1 l2) = map2 (fun a b => g (f a b)) l1 l2.
Proof.
  revert l2. induction l1 as [| a l1 IH]; intros [| b l2]; cbn; try reflexivity.
  rewrite IH. reflexivity.
Qed.

(** Swapping the operands of an element-wise operation, broadcasting
    included, changes nothing that [h] sees, for [h] blind to the order
    of the operands of [op]. *)
Lemma elementwise_swap (op : F -> F -> F) (h : F -> F) (a b : list F) :
  (forall x y, h (op x y) = h (op y x)) ->
  (r <- elementwise op a b ;; Ok (map h r)) = (r <- elementwise op b a ;; Ok (map h r)).
Proof.
  intros Hsym. unfold elementwise. rewrite (Nat.eqb_sym (length b) (length a)).
  destruct (Nat.eqb (length a) (length b)) eqn:E; cbn [bind].
  - rewrite !map_map2. f_equal. apply map2_comm. exact Hsym.
  - destruct a as [| a0 [| a1 a]], b as [| b0 [| b1 b]]; cbn [bind];
      try reflexivity; try (cbn in E; discriminate);
      f_equal; rewrite !map_map; apply map_ext; intros x;
      (apply Hsym || (symmetry; apply Hsym)).
Qed.

Lemma elementwise_comm (op : F -> F -> F) (a b : list F) :
  (forall x y, op x y = op y x) -> elementwise op a b = elementwise op b a.
Proof.
  intros Hsym. pose proof (elementwise_swap op (fun x => x) a b Hsym) as E.
  destruct (elementwise op a b) as [r | e], (elementwise op b a) as [r' | e'];
    cbn [bind] in E; rewrite ?map_id in E; congruence.
Qed.

Lemma grad_term_swap (args : Args) (g1 g2 : list F) :
  grad_term args g1 g2 = grad_term args g2 g1.
Proof.
  unfold grad_term.
  rewrite (elementwise_comm fmul g1 g2 fmul_comm), (fmul_comm (norm2 g1) (norm2 g2)).
  pose proof (elementwise_swap fsub square g1 g2 square_fsub_swap) as Hsq.
  pose proof (elementwise_swap fsub fabs g1 g2 fabs_fsub_swap) as Habs.
  destruct (elementwise fsub g1 g2) as [d | e], (elementwise fsub g2 g1) as [d' | e'];
    cbn [bind] in *; try discriminate.
  - inversion Hsq as [Hsq']. inversion Habs as [Habs']. rewrite Hsq', Habs'. reflexivity.
  - inversion Hsq. reflexivity.
Qed.

Definition swap_pair {A B : Type} (p : A * B) : B * A := (snd p, fst p).

Lemma combine_swap {A B : Type} (l1 : list A) (l2 : list B) :
  combine l2 l1 = map swap_pair (combine l1 l2).
Proof.
  revert l2. induction l1 as [| a l1 IH]; intros [| b l2]; cbn; try reflexivity.
  rewrite IH. reflexivity.
Qed.

Lemma grad_dist_loop_swap (args : Args) pairs (ret : pynum) (n_g : nat) :
  grad_dist_loop args (map swap_pair pairs) ret n_g = grad_dist_loop args pairs ret n_g.
Proof.
  revert ret n_g.
  induction pairs as [| [[g1 |] [g2 |]] pairs IH]; intros ret n_g;
    cbn [map swap_pair fst snd grad_dist_loop]; auto.
  rewrite (grad_term_swap args g2 g1).
  destruct (grad_term args g1 g2); cbn [bind]; auto.
Qed.

Lemma grad_dist_swap (grads1 grads2 : list (option (list F))) (args : Args) :
  grad_dist grads1 grads2 args = grad_dist grads2 grads1 args.
Proof.
  unfold grad_dist. rewrite (combine_swap grads1 grads2), grad_dist_loop_swap.
  reflexivity.
Qed.
End SymmetryFacts.

Definition all_present {F : Type} (grads : list (option (list F))) : Prop :=
  Forall (fun g => g <> None) grads.

(** [grad_dist] under the metric [name] does not depend on the order of its
    two collections, whenever these have one length and no absent
    element. *)
Definition symmetric_metric (F : Type) `{Scalar F} (name : string) : Prop :=
  forall (grads1 grads2 : list (option (list F))) (factor : F),
    length grads1 = length grads2 -> all_present grads1 -> all_present grads2 ->
    grad_dist grads1 grads2 {| loss := name; tag_factor := factor |}
    = grad_dist grads2 grads1 {| loss := name; tag_factor := factor |}.

Arguments symmetric_metric F {_} name.

(** C3, as the code has it.  In an arithmetic whose multiplication commutes
    and whose differences have order-independent squares and absolute
    values, [grad_dist] is symmetric under all three metrics, ['cos']
    included. *)
Theorem grad_dist_symmetric {F : Type} `{SymmetricOps F} :
  symmetric_metric F "dlg"%string /\ symmetric_metric F "tag"%string /\ symmetric_metric F "cos"%string.
Proof.
  repeat split; intros grads1 grads2 factor _ _ _; apply grad_dist_swap.
Qed.

Lemma grad_dist_symmetric_witness :
  symmetric_metric spec_float "dlg"%string /\ symmetric_metric spec_float "tag"%string
  /\ symmetric_metric spec_float "cos"%string
  /\ grad_dist [Some [f32 1; f32 2]; Some [f32 3]] [Some [f32 4; f32 6]; Some [f32 5]]
       {| loss := "cos"; tag_factor := f32 1 |}
     = grad_dist [Some [f32 4; f32 6]; Some [f32 5]] [Some [f32 1; f32 2]; Some [f32 3]]
       {| loss := "cos"; tag_factor := f32 1 |}.
Proof.
  pose proof (@grad_dist_symmetric spec_float float32 float32_symmetric_ops)
    as (Hdlg & Htag & Hcos).
  split; [exact Hdlg | split; [exact Htag | split; [exact Hcos |]]].
  apply Hcos; [reflexivity | |]; repeat constructor; discriminate.
Defined.

(** C3, as the claim has it, fails: it denies the symmetry of the ['cos']
    metric, which holds in binary32 arithmetic as in exact arithmetic. *)
Lemma grad_dist_cos_is_symmetric :
  ~ (symmetric_metric spec_float "dlg"%string /\ symmetric_metric spec_float "tag"%string
     /\ ~ symmetric_metric spec_float "cos"%string)
  /\ ~ (symmetric_metric R "dlg"%string /\ symmetric_metric R "tag"%string
        /\ ~ symmetric_metric R "cos"%string).
Proof.
  split; intros (_ & _ & Hcos); apply Hcos;
    intros grads1 grads2 factor _ _ _; apply grad_dist_swap.
Qed.

(** ** [fix_special_tokens] *)

Section SpecialTokenFacts.
Variable A : Type.
Variables CLS SEP PAD : nat.

Lemma length_set_nth {B : Type} (i : nat) (v : B) (l : list B) :
  length (set_nth i v l) = length l.
Proof.
  revert i. induction l as [| a l IH]; intros [| i]; cbn; auto.
Qed.

Lemma nth_error_set_nth_eq {B : Type} (i : nat) (v : B) (l : list B) :
  i < length l -> nth_error (set_nth i v l) i = Some v.
Proof.
  revert i. induction l as [| a l IH]; intros [| i]; cbn; intros Hi; try lia; auto.
  apply IH. lia.
Qed.

Lemma nth_error_set_nth_neq {B : Type} (i j : nat) (v : B) (l : list B) :
  i <> j -> nth_error (set_nth i v l) j = nth_error l j.
Proof.
  revert i j. induction l as [| a l IH]; intros [| i] [| j]; cbn; intros Hij;
    try reflexivity; try lia.
  apply IH. lia.
Qed.

Definition nonempty (row : list A) : bool :=
  match row with [] => false | _ :: _ => true end.

(** [x_embeds.data[:, 0] = v] writes position 0 of every sequence, or
    nothing at all when some sequence has no position. *)
Lemma assign_column_first (v : A) (x : embeds A) :
  assign_column 0 v x
  = if forallb nonempty x then (map (set_nth 0 v) x, Ok tt) else (x, Raise IndexError).
Proof.
  unfold assign_column.
  assert (Hm : mapM (fun row => k <- py_index (length row) 0 ;; Ok (set_nth k v row)) x
               = if forallb nonempty x then Ok (map (set_nth 0 v) x) else Raise IndexError).
  { induction x as [| row x IH]; [reflexivity |].
    cbn [mapM forallb map]. rewrite IH.
    destruct row as [| a row]; [reflexivity |].
    cbn. destruct (forallb nonempty x); reflexivity. }
  rewrite Hm. destruct (forallb nonempty x); reflexivity.
Qed.

Lemma py_index_last (n : nat) :
  py_index (S n) (-1) = Ok n.
Proof.
  unfold py_index.
  assert (H1 : ((0 <=? -1)%Z && (-1 <? Z.of_nat (S n))%Z) = false) by reflexivity.
  rewrite H1.
  assert (H2 : ((- Z.of_nat (S n) <=? -1)%Z && (-1 <? 0)%Z) = true).
  { apply andb_true_intro. split; [apply Z.leb_le; lia | reflexivity]. }
  rewrite H2. f_equal. lia.
Qed.

(** With no pad boundaries and a batch of another size than one, the
    function is its first assignment. *)
Lemma fix_special_tokens_no_pads (w : list A) (x : embeds A) :
  length x <> 1 ->
  fix_special_tokens CLS SEP PAD w None x
  = match nth_error w CLS with
    | Some cls =>
        if forallb nonempty x then (map (set_nth 0 cls) x, Ok tt)
        else (x, Raise IndexError)
    | None => (x, Raise IndexError)
    end.
Proof.
  intros Hlen. unfold fix_special_tokens, st_bind, st_lift, st_get, embedding.
  destruct (nth_error w CLS) as [cls |]; [| reflexivity].
  rewrite assign_column_first.
  destruct (forallb nonempty x); [| reflexivity].
  rewrite length_map.
  destruct (Nat.eqb_spec (length x) 1) as [E | _]; [contradiction | reflexivity].
Qed.

Lemma nth_map_set_nth (v : A) (x : embeds A) (b : nat) :
  nth b (map (set_nth 0 v) x) [] = set_nth 0 v (nth b x []).
Proof.
  change (@nil A) with (set_nth 0 v (@nil A)) at 1. apply map_nth.
Qed.

Lemma forallb_nonempty_nth (x : embeds A) (b : nat) :
  forallb nonempty x = true -> b < length x -> 0 < length (nth b x []).
Proof.
  intros Hall Hb. rewrite forallb_forall in Hall.
  specialize (Hall (nth b x []) (nth_In x [] Hb)).
  destruct (nth b x []); [discriminate | cbn; lia].
Qed.
End SpecialTokenFacts.

(** C9.  With [pads] absent and more than one sequence in the batch, the
    call modifies nothing but position 0 of the sequences, which it sets to
    the "start" embedding: the shape and every other position are as
    before, the "end" and "pad" ids play no part in the result, an
    exception leaves the tensor untouched, and the call succeeds as soon
    as the "start" id is in the vocabulary and no sequence is empty. *)
Theorem fix_special_tokens_batch_only_start
    (A : Type) (CLS SEP PAD : nat) (w : list A) (x : embeds A) :
  1 < length x ->
  let x' := fst (fix_special_tokens CLS SEP PAD w None x) in
  let r := snd (fix_special_tokens CLS SEP PAD w None x) in
  map (@length A) x' = map (@length A) x
  /\ (forall b i, i <> 0 -> nth_error (nth b x' []) i = nth_error (nth b x []) i)
  /\ (r = Ok tt ->
      exists cls, nth_error w CLS = Some cls
                  /\ forall b, b < length x -> nth_error (nth b x' []) 0 = Some cls)
  /\ (r <> Ok tt -> x' = x)
  /\ (CLS < length w -> Forall (fun row => row <> []) x -> r = Ok tt)
  /\ (forall SEP' PAD',
        fix_special_tokens CLS SEP' PAD' w None x = fix_special_tokens CLS SEP PAD w None x).
Proof.
  intros Hlen x' r. subst x' r.
  assert (Hne : length x <> 1) by lia.
  rewrite (fix_special_tokens_no_pads CLS SEP PAD w x Hne).
  split; [| split; [| split; [| split; [| split]]]].
  - destruct (nth_error w CLS) as [cls |]; [| reflexivity].
    destruct (forallb (nonempty (A:=A)) x); [| reflexivity]. cbn [fst].
    rewrite map_map. apply map_ext. intros row. apply length_set_nth.
  - intros b i Hi.
    destruct (nth_error w CLS) as [cls |]; [| reflexivity].
    destruct (forallb (nonempty (A:=A)) x); [| reflexivity]. cbn [fst].
    rewrite nth_map_set_nth. apply nth_error_set_nth_neq. auto.
  - destruct (nth_error w CLS) as [cls |]; [| discriminate].
    destruct (forallb (nonempty (A:=A)) x) eqn:Hall; [| discriminate].
    intros _. exists cls. split; [reflexivity |]. intros b Hb. cbn [fst].
    rewrite nth_map_set_nth. apply nth_error_set_nth_eq.
    apply forallb_nonempty_nth; assumption.
  - destruct (nth_error w CLS) as [cls |]; [| reflexivity].
    destruct (forallb (nonempty (A:=A)) x); [| reflexivity].
    intros Hr. exfalso. apply Hr. reflexivity.
  - intros Hcls Hrows.
    destruct (nth_error w CLS) as [cls |] eqn:Ecls;
      [| apply nth_error_None in Ecls; lia].
    assert (Hall : forallb (nonempty (A:=A)) x = true).
    { apply forallb_forall. intros row Hin.
      rewrite Forall_forall in Hrows. specialize (Hrows row Hin).
      destruct row; [contradiction | reflexivity]. }
    rewrite Hall. reflexivity.
  - intros SEP' PAD'. apply fix_special_tokens_no_pads. exact Hne.
Qed.

Lemma fix_special_tokens_batch_only_start_witness :
  fix_special_tokens 101 102 0 (seq 1000 200) None [[1; 2; 3]; [4; 5; 6]]
  = ([[1101; 2; 3]; [1101; 5; 6]], Ok tt)
  /\ forall b i, i <> 0 ->
       nth_error (nth b (fst (fix_special_tokens 101 102 0 (seq 1000 200) None
                                [[1; 2; 3]; [4; 5; 6]])) []) i
       = nth_error (nth b [[1; 2; 3]; [4; 5; 6]] []) i.
Proof.
  split; [reflexivity |].
  apply (fix_special_tokens_batch_only_start 101 102 0 (seq 1000 200)
           [[1; 2; 3]; [4; 5; 6]]).
  cbn. lia.
Defined.

(** C4, as the code has it.  With [pads] absent and a batch of exactly one
    sequence, whose "start" and "end" ids are in the vocabulary, the call
    succeeds; it sets the last position exactly to the "end" embedding,
    sets the first position, when it is not the last one too, to the
    "start" embedding, and leaves every position in between unchanged. *)
Theorem fix_special_tokens_single_sequence
    (A : Type) (CLS SEP PAD : nat) (w : list A) (row : list A) (cls sep : A) :
  nth_error w CLS = Some cls ->
  nth_error w SEP = Some sep ->
  row <> [] ->
  exists row',
    fix_special_tokens CLS SEP PAD w None [row] = ([row'], Ok tt)
    /\ length row' = length row
    /\ nth_error row' (length row - 1) = Some sep
    /\ (1 < length row -> nth_error row' 0 = Some cls)
    /\ (forall i, 0 < i -> i < length row - 1 -> nth_error row' i = nth_error row i).
Proof.
  intros Hcls Hsep Hrow.
  destruct row as [| a row]; [contradiction |].
  exists (set_nth (length row) sep (cls :: row)).
  unfold fix_special_tokens, st_bind, st_lift, st_get, embedding.
  rewrite Hcls, assign_column_first. cbn [forallb nonempty andb map set_nth length Nat.eqb].
  rewrite Hsep. unfold assign_column. cbn [mapM length].
  rewrite py_index_last. cbn [bind].
  split; [reflexivity |].
  split; [rewrite length_set_nth; reflexivity |].
  cbn [length]. rewrite Nat.sub_succ, Nat.sub_0_r.
  split; [apply nth_error_set_nth_eq; cbn; lia |].
  split.
  - intros Hlen. rewrite nth_error_set_nth_neq by lia. reflexivity.
  - intros i Hpos Hi. rewrite nth_error_set_nth_neq by lia.
    destruct i as [| i]; [lia | reflexivity].
Qed.

Lemma fix_special_tokens_single_sequence_witness :
  exists row',
    fix_special_tokens 101 102 0 (seq 1000 200) None [[1; 2; 3; 4]] = ([row'], Ok tt)
    /\ length row' = 4
    /\ nth_error row' 3 = Some 1102
    /\ (1 < 4 -> nth_error row' 0 = Some 1101)
    /\ (forall i, 0 < i -> i < 3 -> nth_error row' i = nth_error [1; 2; 3; 4] i).
Proof.
  apply (@fix_special_tokens_single_sequence nat 101 102 0 (seq 1000 200)
           [1; 2; 3; 4] 1101 1102); [reflexivity | reflexivity | discriminate].
Defined.

(** C4, as the claim has it, fails: the first position is not the last one
    here, and it is overwritten, by the "start" embedding. *)
Lemma fix_special_tokens_overwrites_first :
  fix_special_tokens 101 102 0 (seq 1000 200) None [[1; 2; 3; 4]]
  = ([[1101; 2; 3; 1102]], Ok tt)
  /\ nth_error (nth 0 (fst (fix_special_tokens 101 102 0 (seq 1000 200) None
                              [[1; 2; 3; 4]])) []) 0
     <> nth_error [1; 2; 3; 4] 0.
Proof. split; [reflexivity | discriminate]. Qed.

(** ** Exclusion and selection in [get_closest_tokens] *)

(** What the selection rests on: [>=] is reflexive away from NaN, a value
    that is not [>=] the running minimum is below everything the minimum
    was below, and the sentinel is a number. *)
Class OrderLaws (F : Type) `{Scalar F} : Prop := {
  fge_refl : forall a : F, fisnan a = false -> fge a a = true;
  fge_below : forall best v x : F,
    fge v best = false -> fisnan v = false -> fge x best = true -> fge x v = true;
  fsentinel_not_nan : fisnan (fsentinel : F) = false
}.

Lemma SFleb_refl (a : spec_float) : sf_isnan a = false -> SFleb a a = true.
Proof.
  destruct a as [s | s | | s m e]; unfold SFleb; cbn [SFcompare sf_isnan];
    try reflexivity; try discriminate; intros _.
  - destruct s; reflexivity.
  - rewrite Z.compare_refl. change (Pos.compare_cont Eq m m) with (Pos.compare m m).
    rewrite Pos.compare_refl. destruct s; reflexivity.
Qed.

Ltac compare_cases :=
  repeat match goal with
  | |- context [Z.compare ?a ?b] => destruct (Z.compare_spec a b)
  | |- context [Pos.compare ?a ?b] => destruct (Pos.compare_spec a b)
  | H : context [Z.compare ?a ?b] |- _ => destruct (Z.compare_spec a b)
  | H : context [Pos.compare ?a ?b] |- _ => destruct (Pos.compare_spec a b)
  end.

(** [b < a <= c] gives [b <= c], for [b] a number. *)
Lemma SFleb_below (a b c : spec_float) :
  SFleb a b = false -> sf_isnan b = false -> SFleb a c = true -> SFleb b c = true.
Proof.
  destruct a as [sa | sa | | sa ma ea], b as [sb | sb | | sb mb eb],
           c as [sc | sc | | sc mc ec];
    unfold SFleb; cbn [SFcompare sf_isnan];
    try discriminate; try reflexivity;
    try (destruct sa, sb, sc; (reflexivity || discriminate));
    try (destruct sa, sb; (reflexivity || discriminate));
    try (destruct sa, sc; (reflexivity || discriminate));
    try (destruct sb, sc; (reflexivity || discriminate)).
  all: change (Pos.compare_cont Eq) with Pos.compare.
  all: destruct sa, sb, sc; try (reflexivity || discriminate).
  all: compare_cases; cbn; try (reflexivity || discriminate); try lia.
Qed.

Lemma ieee_order_laws (prec emax : Z) :
  sf_isnan (sf_of_Z prec emax 1000000000) = false ->
  @OrderLaws spec_float (ieee prec emax).
Proof.
  intros Hs. split; cbn.
  - apply SFleb_refl.
  - intros best v x Hv Hnan Hx. eapply SFleb_below; eassumption.
  - exact Hs.
Qed.

#[export] Instance float32_order_laws : @OrderLaws spec_float float32 :=
  ieee_order_laws 24 128 eq_refl.

Lemma mapM_ok_inv {A B : Type} (f : A -> result B) (l : list A) (l' : list B) :
  mapM f l = Ok l' -> Forall2 (fun a b => f a = Ok b) l l'.
Proof.
  revert l'. induction l as [| a l IH]; cbn [mapM]; intros l' E.
  - inversion E. constructor.
  - apply bind_ok_inv in E as (b & Hb & E).
    apply bind_ok_inv in E as (bs & Hbs & E). inversion E. subst.
    constructor; auto.
Qed.

Lemma Forall2_nth_error_l {A B : Type} (P : A -> B -> Prop) l l' i a :
  Forall2 P l l' -> nth_error l i = Some a ->
  exists b, nth_error l' i = Some b /\ P a b.
Proof.
  intros HF. revert i. induction HF as [| x y l l' Hxy _ IH]; intros [| i]; cbn;
    try discriminate.
  - intros E. inversion E. subst. eauto.
  - apply IH.
Qed.

Lemma Forall2_nth_error_r {A B : Type} (P : A -> B -> Prop) l l' i b :
  Forall2 P l l' -> nth_error l' i = Some b ->
  exists a, nth_error l i = Some a /\ P a b.
Proof.
  intros HF. revert i. induction HF as [| x y l l' Hxy _ IH]; intros [| i]; cbn;
    try discriminate.
  - intros E. inversion E. subst. eauto.
  - apply IH.
Qed.

Section SelectionFacts.
Context {F : Type} `{OrderLaws F}.

(** What the scan returns is an entry of the row at the returned index,
    and either a NaN or a value that every entry is [>=]. *)
Lemma min_scan_spec (row pre : list F) (best : F) (best_i : nat) :
  nth_error (pre ++ row) best_i = Some best ->
  Forall (fun x => fge x best = true) pre ->
  let m := fst (min_scan row (length pre) best best_i) in
  let k := snd (min_scan row (length pre) best best_i) in
  nth_error (pre ++ row) k = Some m
  /\ (fisnan m = true \/ Forall (fun x => fge x m = true) (pre ++ row)).
Proof.
  revert pre best best_i.
  induction row as [| v row IH]; intros pre best best_i Hbest Hpre; cbn [min_scan].
  - cbn [fst snd]. split; [exact Hbest |]. right. rewrite app_nil_r. exact Hpre.
  - assert (Hsplit : pre ++ v :: row = (pre ++ [v]) ++ row)
      by (rewrite <- app_assoc; reflexivity).
    assert (Hlen : S (length pre) = length (pre ++ [v]))
      by (rewrite length_app, Nat.add_comm; reflexivity).
    destruct (fge v best) eqn:Hv; cbn [negb].
    + rewrite Hsplit, Hlen. apply IH.
      * rewrite <- Hsplit. exact Hbest.
      * apply Forall_app. split; [exact Hpre |]. constructor; [exact Hv | constructor].
    + destruct (fisnan v) eqn:Hnan.
      * cbn [fst snd]. split; [| left; exact Hnan].
        rewrite nth_error_app2 by lia. rewrite Nat.sub_diag. reflexivity.
      * rewrite Hsplit, Hlen. apply IH.
        -- rewrite <- Hsplit, nth_error_app2 by lia.
           rewrite Nat.sub_diag. reflexivity.
        -- apply Forall_app. split.
           ++ eapply Forall_impl; [| exact Hpre]. cbn. intros x Hx.
              eapply fge_below; eassumption.
           ++ constructor; [apply fge_refl; exact Hnan | constructor].
Qed.

Lemma min_row_spec (row : list F) (m : F) (k : nat) :
  min_row row = Ok (m, k) ->
  nth_error row k = Some m
  /\ (fisnan m = true \/ Forall (fun x => fge x m = true) row).
Proof.
  destruct row as [| v0 row]; cbn [min_row]; [discriminate |].
  intros E.
  assert (E' : min_scan (v0 :: row) 0 v0 0 = (m, k)) by congruence.
  pose proof (@min_scan_spec (v0 :: row) [] v0 0 eq_refl (Forall_nil _)) as Hs.
  cbn [length app] in Hs. rewrite E' in Hs. exact Hs.
Qed.

Lemma nth_error_fill_from (j : nat) (unused_tokens : list nat) (v : F)
    (row : list F) (k : nat) :
  nth_error (fill_from j unused_tokens v row) k
  = option_map (fun a => if existsb (Nat.eqb (j + k)) unused_tokens then v else a)
               (nth_error row k).
Proof.
  revert j k. induction row as [| a row IH]; intros j [| k]; cbn; try reflexivity.
  - rewrite Nat.add_0_r. reflexivity.
  - rewrite IH. replace (S j + k) with (j + S k) by lia. reflexivity.
Qed.

Lemma existsb_eqb_In (k : nat) (l : list nat) :
  existsb (Nat.eqb k) l = true <-> In k l.
Proof.
  rewrite existsb_exists. split.
  - intros (x & Hin & E). apply Nat.eqb_eq in E. subst. exact Hin.
  - intros Hin. exists k. split; [exact Hin | apply Nat.eqb_refl].
Qed.

(** On a row whose excluded entries hold the sentinel, an entry that is
    not [>=] the sentinel keeps every excluded index from being
    selected. *)
Lemma min_row_avoids_excluded (unused_tokens : list nat) (row0 : list F)
    (m : F) (k j : nat) (a : F) :
  min_row (fill_from 0 unused_tokens fsentinel row0) = Ok (m, k) ->
  nth_error (fill_from 0 unused_tokens fsentinel row0) j = Some a ->
  ~ In j unused_tokens ->
  fge a fsentinel = false ->
  ~ In k unused_tokens.
Proof.
  intros Hmin Hj Hnot Ha Hk.
  apply min_row_spec in Hmin as [Hm Hall].
  rewrite nth_error_fill_from in Hm. cbn [Nat.add] in Hm.
  apply existsb_eqb_In in Hk. rewrite Hk in Hm.
  destruct (nth_error row0 k); [| discriminate]. cbn in Hm. inversion Hm. subst m.
  destruct Hall as [Hnan | Hall].
  - rewrite fsentinel_not_nan in Hnan. discriminate.
  - rewrite Forall_forall in Hall.
    specialize (Hall a (nth_error_In _ _ Hj)). congruence.
Qed.

(** The three stages of a successful call. *)
Lemma get_closest_tokens_ok_inv (x : tensor3) (unused_tokens : list nat)
    (w : tensor2) (g : option tensor3) (metric : string)
    (d : tensor3) (ids : list (list nat)) :
  get_closest_tokens x unused_tokens w g metric = Ok (d, ids) ->
  exists d0 m,
    distance_matrix x w g metric = Ok d0
    /\ index_fill d0 unused_tokens fsentinel = Ok d
    /\ mapM (mapM min_row) d = Ok m
    /\ ids = map (map snd) m.
Proof.
  unfold get_closest_tokens, min_dim2. intros E.
  apply bind_ok_inv in E as (d0 & Hd0 & E).
  apply bind_ok_inv in E as (d' & Hd' & E).
  apply bind_ok_inv in E as ([vs ix] & Hm & E).
  apply bind_ok_inv in Hm as (m & Hm & Hvi).
  inversion E. inversion Hvi. subst.
  exists d0, m. split; [exact Hd0 | split; [exact Hd' | split; [exact Hm | reflexivity]]].
Qed.
End SelectionFacts.

(** C2, as the code has it.  At every position where some vocabulary entry
    that is not excluded has a distance that is not [>=] the sentinel [1e9]
    (it is smaller, or NaN), the index [get_closest_tokens] returns is not
    an excluded token id. *)
Theorem excluded_token_not_selected
    {F : Type} `{OrderLaws F} (inputs_embeds : tensor3) (unused_tokens : list nat)
    (embeddings_weight : tensor2) (grads : option tensor3) (metric : string)
    (d : tensor3) (token_indices : list (list nat))
    (b l j : nat) (d_b : list (list F)) (row : list F) (a : F) :
  get_closest_tokens inputs_embeds unused_tokens embeddings_weight grads metric
    = Ok (d, token_indices) ->
  nth_error d b = Some d_b ->
  nth_error d_b l = Some row ->
  nth_error row j = Some a ->
  ~ In j unused_tokens ->
  fge a fsentinel = false ->
  exists k, nth_error (nth b token_indices []) l = Some k /\ ~ In k unused_tokens.
Proof.
  intros Hcall Hb Hl Hj Hnot Ha.
  apply get_closest_tokens_ok_inv in Hcall as (d0 & m & _ & Hfill & Hmin & ->).
  unfold index_fill in Hfill. apply mapM_ok_inv in Hfill.
  destruct (Forall2_nth_error_r _ Hfill Hb) as (d0_b & _ & Hfill_b).
  apply mapM_ok_inv in Hfill_b.
  destruct (Forall2_nth_error_r _ Hfill_b Hl) as (row0 & _ & Hrow).
  destruct (forallb _ unused_tokens); [| discriminate].
  inversion Hrow as [Erow]. clear Hrow.
  apply mapM_ok_inv in Hmin.
  destruct (Forall2_nth_error_l _ Hmin Hb) as (m_b & Hm_b & Hmin_b).
  apply mapM_ok_inv in Hmin_b.
  destruct (Forall2_nth_error_l _ Hmin_b Hl) as ([v k] & Hm_l & Hmin_l).
  exists k. split.
  - rewrite (nth_error_nth _ _ [] (map_nth_error (map snd) b m Hm_b)).
    rewrite nth_error_map, Hm_l. reflexivity.
  - subst row. eapply min_row_avoids_excluded; eassumption.
Qed.

Lemma excluded_token_not_selected_witness :
  get_closest_tokens [[[f32 1; f32 0]]] [0; 2]
    [[f32 1; f32 0]; [f32 0; f32 1]; [f32 2; f32 0]] None "cos"
  = Ok ([[[f32 1000000000; SFopp (f32 0); f32 1000000000]]], [[1]])
  /\ fge (SFopp (f32 0)) (f32 1000000000) = false
  /\ exists k, nth_error (nth 0 [[1]] []) 0 = Some k /\ ~ In k [0; 2].
Proof.
  split; [reflexivity | split; [reflexivity |]].
  apply (@excluded_token_not_selected spec_float float32 float32_order_laws
           [[[f32 1; f32 0]]] [0; 2]
           [[f32 1; f32 0]; [f32 0; f32 1]; [f32 2; f32 0]] None "cos"
           [[[f32 1000000000; SFopp (f32 0); f32 1000000000]]] [[1]]
           0 0 1 [[f32 1000000000; SFopp (f32 0); f32 1000000000]]
           [f32 1000000000; SFopp (f32 0); f32 1000000000] (SFopp (f32 0)));
    try reflexivity.
  cbn [In]. intros [E | [E | []]]; discriminate.
Defined.

(** C2, as the claim has it, fails: the one entry that is not excluded lies
    at distance [3e9], beyond the sentinel, and the excluded index 0 is
    returned; and when every id is excluded no other index is left. *)
Lemma excluded_token_selected :
  get_closest_tokens [[[f32 0]]] [0] [[f32 2000000000]; [f32 3000000000]] None "l2"
  = Ok ([[[f32 1000000000; f32 3000000000]]], [[0]])
  /\ get_closest_tokens [[[f32 1]]] [0] [[f32 1]] None "cos"
     = Ok ([[[f32 1000000000]]], [[0]])
  /\ In 0 [0].
Proof. repeat split; try reflexivity. left. reflexivity. Qed.

(** ** [get_closest_tokens] and the tensors of its caller *)

Section StoreFacts.
Context {F : Type} `{Scalar F}.

(** [keeps n c Q]: run in a store of at least [n] objects, [c] leaves the
    first [n] as they are, removes none, and its value satisfies [Q]. *)
Definition keeps {A : Type} (n : nat) (c : ST (@store F) A) (Q : A -> Prop) : Prop :=
  forall h, n <= length h ->
    firstn n (fst (c h)) = firstn n h
    /\ length h <= length (fst (c h))
    /\ forall a, snd (c h) = Ok a -> Q a.

Definition anything {A : Type} (_ : A) : Prop := True.

Lemma keeps_bind {A B : Type} (n : nat) (c : ST store A) (k : A -> ST store B)
    (Q : A -> Prop) (Q' : B -> Prop) :
  keeps n c Q -> (forall a, Q a -> keeps n (k a) Q') -> keeps n (st_bind c k) Q'.
Proof.
  intros Hc Hk h Hn. unfold st_bind.
  destruct (Hc h Hn) as (Hfirst & Hlen & HQ).
  destruct (c h) as [h1 [a | e]]; cbn [fst snd] in *.
  - destruct (Hk a (HQ a eq_refl) h1 ltac:(lia)) as (Hfirst' & Hlen' & HQ').
    split; [congruence | split; [lia | exact HQ']].
  - split; [exact Hfirst | split; [exact Hlen | discriminate]].
Qed.

Lemma keeps_weaken {A : Type} (n : nat) (c : ST store A) (Q Q' : A -> Prop) :
  keeps n c Q -> (forall a, Q a -> Q' a) -> keeps n c Q'.
Proof.
  intros Hc HQ h Hn. destruct (Hc h Hn) as (Hfirst & Hlen & Ha).
  split; [exact Hfirst | split; [exact Hlen | auto]].
Qed.

Lemma keeps_ret {A : Type} (n : nat) (a : A) : keeps n (st_ret a) anything.
Proof. intros h _. cbn. repeat split; auto. Qed.

Lemma keeps_lift {A : Type} (n : nat) (c : result A) : keeps n (st_lift c) anything.
Proof. intros h _. cbn. repeat split; auto. Qed.

Lemma keeps_raise {A : Type} (n : nat) (e : exn) (Q : A -> Prop) :
  keeps n (st_lift (Raise e)) Q.
Proof. intros h _. cbn. repeat split; auto. discriminate. Qed.

Lemma keeps_load2 (n l : nat) : keeps n (load2 l) anything.
Proof.
  intros h _. unfold load2.
  destruct (nth_error h l) as [[] |]; cbn; repeat split; auto.
Qed.

Lemma keeps_load3 (n l : nat) : keeps n (load3 l) anything.
Proof.
  intros h _. unfold load3.
  destruct (nth_error h l) as [[] |]; cbn; repeat split; auto.
Qed.

(** A fresh object lies beyond the first [n]. *)
Lemma keeps_alloc (n : nat) (v : tval) : keeps n (alloc v) (fun l => n <= l).
Proof.
  intros h Hn. unfold alloc. cbn [fst snd].
  split; [| split].
  - rewrite firstn_app. replace (n - length h) with 0 by lia.
    cbn [firstn]. apply app_nil_r.
  - rewrite length_app. lia.
  - intros a E. inversion E. subst. exact Hn.
Qed.

Lemma firstn_set_nth {B : Type} (n l : nat) (v : B) (h : list B) :
  n <= l -> firstn n (set_nth l v h) = firstn n h.
Proof.
  revert n l. induction h as [| a h IH]; intros [| n] [| l] Hn; cbn;
    try reflexivity; try lia.
  rewrite IH by lia. reflexivity.
Qed.

(** An assignment in place beyond the first [n]. *)
Lemma keeps_overwrite (n l : nat) (v : tval) :
  n <= l -> keeps n (overwrite l v) anything.
Proof.
  intros Hl h _. unfold overwrite. cbn [fst snd].
  split; [apply firstn_set_nth; exact Hl | split].
  - rewrite length_set_nth. lia.
  - intros; exact I.
Qed.

Lemma keeps_clone (n l : nat) : keeps n (clone l) (fun l' => n <= l').
Proof.
  unfold clone. eapply keeps_bind; [apply keeps_load3 |].
  intros t _. apply keeps_alloc.
Qed.

Lemma keeps_index_fill_ (n d : nat) (unused_tokens : list nat) (v : F) :
  n <= d -> keeps n (index_fill_ d unused_tokens v) anything.
Proof.
  intros Hd. unfold index_fill_.
  eapply keeps_bind; [apply keeps_load3 |]. intros t _.
  eapply keeps_bind; [apply keeps_lift |]. intros t' _.
  apply keeps_overwrite. exact Hd.
Qed.

(** The distance matrix is a fresh tensor, under every metric. *)
Lemma keeps_get_closest_tokens_st (n : nat) (inputs_embeds : nat)
    (unused_tokens : list nat) (embeddings_weight : nat) (grads : option nat)
    (metric : string) :
  keeps n (get_closest_tokens_st inputs_embeds unused_tokens embeddings_weight
             grads metric) anything.
Proof.
  unfold get_closest_tokens_st.
  eapply keeps_bind; [apply keeps_load3 |]. intros x _.
  eapply keeps_bind; [apply keeps_load2 |]. intros w _.
  eapply keeps_bind; [apply keeps_alloc |]. intros ew' _.
  eapply keeps_bind with (Q := fun d => n <= d).
  { destruct (String.eqb metric "l2");
      [| destruct (String.eqb metric "cos");
         [| destruct (String.eqb metric "grad_align"), grads as [g |]]].
    - eapply keeps_bind; [apply keeps_load3 |]. intros ew _.
      eapply keeps_bind; [apply keeps_lift |]. intros t _. apply keeps_alloc.
    - eapply keeps_bind; [apply keeps_load3 |]. intros ew _.
      eapply keeps_bind; [apply keeps_lift |]. intros t _. apply keeps_alloc.
    - eapply keeps_bind; [apply keeps_load3 |]. intros gt _.
      eapply keeps_bind; [apply keeps_lift |]. intros t _. apply keeps_alloc.
    - apply keeps_raise.
    - apply keeps_raise.
    - apply keeps_raise. }
  intros d0 Hd0.
  eapply keeps_bind; [apply keeps_clone |]. intros d Hd.
  eapply keeps_bind; [apply keeps_index_fill_; exact Hd |]. intros _ _.
  eapply keeps_bind; [apply keeps_load3 |]. intros t _.
  eapply keeps_bind; [apply keeps_lift |]. intros [values indices] _.
  eapply keeps_bind; [apply keeps_alloc |]. intros min_distances _.
  eapply keeps_bind; [apply keeps_alloc |]. intros token_indices _.
  apply keeps_ret.
Qed.
End StoreFacts.

Section StoreRefinement.
Context {F : Type} `{Scalar F}.

(** The optional gradient argument: an address holding a tensor, or [None]. *)
Definition grads_at (h : @store F) (g : option nat) (gv : option (@tensor3 F)) : Prop :=
  match g, gv with
  | Some l, Some t => nth_error h l = Some (T3 t)
  | None, None => True
  | _, _ => False
  end.

Lemma nth_error_fresh {B : Type} (h : list B) (v : B) :
  nth_error (h ++ [v]) (length h) = Some v.
Proof. rewrite nth_error_app2 by lia. rewrite Nat.sub_diag. reflexivity. Qed.

Lemma set_nth_fresh {B : Type} (h : list B) (v v' : B) :
  set_nth (length h) v' (h ++ [v]) = h ++ [v'].
Proof. induction h as [| a h IH]; cbn; [reflexivity | rewrite IH; reflexivity]. Qed.

(** Exclusion and selection on the store, from a distance matrix [t] that
    was just allocated. *)
Lemma select_st_run (h : @store F) (unused_tokens : list nat) (t : @tensor3 F) :
  let run :=
    (d <~ clone (length h) ;;
     _ <~ index_fill_ d unused_tokens fsentinel ;;
     t' <~ load3 d ;;
     '(values, indices) <~ st_lift (min_dim2 t') ;;
     min_distances <~ alloc (TValues values) ;;
     token_indices <~ alloc (TIndices indices) ;;
     st_ret (d, token_indices)) (h ++ [T3 t]) in
  match (d <- index_fill t unused_tokens fsentinel ;;
         '(min_distances, token_indices) <- min_dim2 d ;;
         Ok (d, token_indices)) with
  | Ok (d, ids) =>
      exists ld li, snd run = Ok (ld, li)
                    /\ nth_error (fst run) ld = Some (T3 d)
                    /\ nth_error (fst run) li = Some (TIndices ids)
  | Raise e => snd run = Raise e
  end.
Proof.
  unfold clone, index_fill_, st_bind, load3, alloc, st_lift, overwrite, st_ret.
  rewrite nth_error_fresh.
  rewrite (nth_error_fresh (h ++ [T3 t]) (T3 t)).
  destruct (index_fill t unused_tokens fsentinel) as [d | e]; cbn [bind fst snd];
    [| reflexivity].
  rewrite set_nth_fresh, nth_error_fresh.
  destruct (min_dim2 d) as [[values indices] | e]; cbn [bind fst snd]; [| reflexivity].
  exists (length (h ++ [T3 t])), (length (((h ++ [T3 t]) ++ [T3 d]) ++ [TValues values])).
  split; [reflexivity | split].
  - rewrite !nth_error_app1 by (rewrite !length_app; cbn [length]; lia).
    apply nth_error_fresh.
  - apply nth_error_fresh.
Qed.

(** Up to the distance matrix: the repeated vocabulary and the matrix are
    the two objects allocated so far. *)
Lemma distance_st_run (h : @store F) (inputs_embeds : nat)
    (unused_tokens : list nat) (embeddings_weight : nat) (grads : option nat)
    (metric : string) (x : @tensor3 F) (w : @tensor2 F) (gv : option (@tensor3 F)) :
  nth_error h inputs_embeds = Some (T3 x) ->
  nth_error h embeddings_weight = Some (T2 w) ->
  grads_at h grads gv ->
  let h1 := h ++ [T3 (repeat_batch (length x) w)] in
  get_closest_tokens_st inputs_embeds unused_tokens embeddings_weight grads metric h
  = match distance_matrix x w gv metric with
    | Ok t =>
        (d <~ clone (length h1) ;;
         _ <~ index_fill_ d unused_tokens fsentinel ;;
         t' <~ load3 d ;;
         '(values, indices) <~ st_lift (min_dim2 t') ;;
         min_distances <~ alloc (TValues values) ;;
         token_indices <~ alloc (TIndices indices) ;;
         st_ret (d, token_indices)) (h1 ++ [T3 t])
    | Raise e => (h1, Raise e)
    end.
Proof.
  intros Hx Hw Hg h1. subst h1.
  unfold get_closest_tokens_st, distance_matrix.
  unfold st_bind at 1. unfold load3 at 1. rewrite Hx.
  unfold st_bind at 1. unfold load2 at 1. rewrite Hw.
  unfold st_bind at 1. unfold alloc at 1.
  unfold st_bind at 1.
  destruct (String.eqb metric "l2");
    [| destruct (String.eqb metric "cos");
       [| destruct (String.eqb metric "grad_align"), grads as [g |], gv as [gt |];
          cbn [grads_at] in Hg; try contradiction; try reflexivity]].
  - unfold st_bind at 1. unfold load3 at 1. rewrite nth_error_fresh.
    unfold st_bind at 1. unfold st_lift at 1.
    destruct (cdist x (repeat_batch (length x) w)) as [t | e]; reflexivity.
  - unfold st_bind at 1. unfold load3 at 1. rewrite nth_error_fresh.
    unfold st_bind at 1. unfold st_lift at 1.
    destruct (cos_distance x (repeat_batch (length x) w)) as [t | e]; reflexivity.
  - unfold st_bind at 1. unfold load3 at 1.
    rewrite nth_error_app1 by (apply nth_error_Some; congruence). rewrite Hg.
    unfold st_bind at 1. unfold st_lift at 1.
    destruct (grad_align_distance x w gt) as [t | e]; reflexivity.
Qed.

(** The function on the store computes what the function on values
    computes, from the tensors its arguments name. *)
Lemma get_closest_tokens_st_refines (h : @store F) (inputs_embeds : nat)
    (unused_tokens : list nat) (embeddings_weight : nat) (grads : option nat)
    (metric : string) (x : @tensor3 F) (w : @tensor2 F) (gv : option (@tensor3 F)) :
  nth_error h inputs_embeds = Some (T3 x) ->
  nth_error h embeddings_weight = Some (T2 w) ->
  grads_at h grads gv ->
  let run := get_closest_tokens_st inputs_embeds unused_tokens embeddings_weight
               grads metric h in
  match get_closest_tokens x unused_tokens w gv metric with
  | Ok (d, ids) =>
      exists ld li, snd run = Ok (ld, li)
                    /\ nth_error (fst run) ld = Some (T3 d)
                    /\ nth_error (fst run) li = Some (TIndices ids)
  | Raise e => snd run = Raise e
  end.
Proof.
  intros Hx Hw Hg run. subst run.
  pose proof (@distance_st_run h inputs_embeds unused_tokens embeddings_weight grads
                metric x w gv Hx Hw Hg) as Hrun.
  cbv zeta in Hrun. rewrite Hrun. clear Hrun.
  unfold get_closest_tokens.
  destruct (distance_matrix x w gv metric) as [t | e]; [| reflexivity].
  cbn [bind]. apply select_st_run.
Qed.
End StoreRefinement.

(** C10.  Whatever the store and the arguments, and whether the call
    returns or raises, every tensor that existed before the call holds the
    same value after it: the objects the function allocates (the repeated
    vocabulary, the distance matrix, its clone, the minima) are new, and
    the one assignment in place goes to the clone.  In particular
    [inputs_embeds], [embeddings_weight] and [grads] are unchanged. *)
Theorem get_closest_tokens_leaves_inputs
    {F : Type} `{Scalar F} (h : @store F) (inputs_embeds : nat)
    (unused_tokens : list nat) (embeddings_weight : nat) (grads : option nat)
    (metric : string) :
  let h' := fst (get_closest_tokens_st inputs_embeds unused_tokens embeddings_weight
                   grads metric h) in
  firstn (length h) h' = h
  /\ (forall l t, nth_error h l = Some t -> nth_error h' l = Some t).
Proof.
  intros h'.
  destruct (@keeps_get_closest_tokens_st F _ (length h) inputs_embeds unused_tokens
              embeddings_weight grads metric h (le_n _)) as (Hfirst & _ & _).
  fold h' in Hfirst. rewrite firstn_all in Hfirst.
  split; [exact Hfirst |].
  intros l t Hl. rewrite <- (firstn_skipn (length h) h'), Hfirst.
  rewrite nth_error_app1 by (apply nth_error_Some; congruence). exact Hl.
Qed.

Lemma get_closest_tokens_leaves_inputs_witness :
  let h := [T3 [[[f32 1; f32 0]]]; T2 [[f32 1; f32 0]; [f32 0; f32 1]]] in
  let run := get_closest_tokens_st 0 [0] 1 None "cos" h in
  snd run = Ok (4, 6)
  /\ nth_error (fst run) 4 = Some (T3 [[[f32 1000000000; SFopp (f32 0)]]])
  /\ nth_error (fst run) 6 = Some (TIndices [[1]])
  /\ firstn (length h) (fst run) = h.
Proof.
  split; [reflexivity | split; [reflexivity | split; [reflexivity |]]].
  apply (@get_closest_tokens_leaves_inputs spec_float float32
           [T3 [[[f32 1; f32 0]]]; T2 [[f32 1; f32 0]; [f32 0; f32 1]]]
           0 [0] 1 None "cos").
Defined.

(** ** The distance matrix in closed form *)

Lemma mapM_ok_map {A B : Type} (f : A -> result B) (g : A -> B) (l : list A) :
  (forall a, In a l -> f a = Ok (g a)) -> mapM f l = Ok (map g l).
Proof.
  induction l as [| a l IH]; intros Hf; [reflexivity |].
  cbn [mapM map]. rewrite (Hf a (or_introl eq_refl)). cbn [bind].
  rewrite IH by (intros a' Ha'; apply Hf; right; exact Ha'). reflexivity.
Qed.

Lemma mapM_map {A B C : Type} (f : B -> result C) (g : A -> B) (l : list A) :
  mapM f (map g l) = mapM (fun a => f (g a)) l.
Proof.
  induction l as [| a l IH]; [reflexivity |]. cbn [map mapM]. rewrite IH. reflexivity.
Qed.

Section ClosedForm.
Context {F : Type} `{Scalar F}.

(** All vectors of [x] and of [w] have [D] coordinates. *)
Definition uniform_dim (D : nat) (x : @tensor3 F) (w : @tensor2 F) : Prop :=
  Forall (Forall (fun xi => length xi = D)) x /\ Forall (fun wj => length wj = D) w.

Lemma pairwise_repeat (f : list F -> list F -> F) (x : tensor3) (w : tensor2) (n : nat) :
  length x <= n ->
  pairwise f x (repeat_batch n w) = map (map (fun xi => map (f xi) w)) x.
Proof.
  unfold pairwise, repeat_batch. revert n.
  induction x as [| xb x IH]; intros [| n] Hn; cbn in *; try reflexivity; try lia.
  rewrite IH by lia. reflexivity.
Qed.

Lemma same_last_dim_repeat (D : nat) (x : tensor3) (w : tensor2) (n : nat) :
  uniform_dim D x w -> same_last_dim x (repeat_batch n w) = true.
Proof.
  intros [Hx Hw]. unfold same_last_dim, repeat_batch. revert n.
  induction Hx as [| xb x Hxb _ IH]; intros [| n]; cbn [repeat combine forallb];
    try reflexivity.
  rewrite IH, andb_true_r. cbn [fst snd].
  apply forallb_forall. intros xi Hxi. apply forallb_forall. intros wj Hwj.
  rewrite Forall_forall in Hxb, Hw. apply Nat.eqb_eq.
  rewrite (Hxb xi Hxi), (Hw wj Hwj). reflexivity.
Qed.

(** One entry of the ['cos'] distance matrix. *)
Definition cos_entry (xi wj : list F) : F :=
  fdiv (fneg (dot xi wj)) (fmul (norm2 xi) (norm2 wj)).

(** One entry of the ['l2'] distance matrix of input [x] and vocabulary
    [w]: which of the two routes [cdist] takes depends on their sizes. *)
Definition l2_entry (x : @tensor3 F) (w : @tensor2 F) : list F -> list F -> F :=
  if Nat.ltb 25 (seq_len x) || Nat.ltb 25 (length w)
  then euclidean_dist_entry else direct_dist_entry.

Lemma uses_mm_repeat (x : @tensor3 F) (w : @tensor2 F) :
  x <> [] ->
  uses_mm x (repeat_batch (length x) w)
  = Nat.ltb 25 (seq_len x) || Nat.ltb 25 (length w).
Proof.
  destruct x as [| xb x]; [contradiction | reflexivity].
Qed.

Lemma neg_div_norms_repeat (x : tensor3) (w : tensor2) (n : nat) :
  length x <= n ->
  neg_div_norms (pairwise dot x (repeat_batch n w)) (norm_dim2 x)
    (norm_dim2 (repeat_batch n w))
  = map (map (fun xi => map (cos_entry xi) w)) x.
Proof.
  intros Hn. rewrite pairwise_repeat by exact Hn.
  unfold neg_div_norms, norm_dim2, repeat_batch.
  revert n Hn. induction x as [| xb x IH]; intros n Hn; [reflexivity |].
  destruct n as [| n]; [cbn in Hn; lia |].
  cbn [repeat map combine map2 fst snd].
  rewrite IH by (cbn in Hn; lia). f_equal.
  clear IH Hn. induction xb as [| xi xb IHb]; [reflexivity |].
  cbn [map map2]. rewrite IHb. f_equal.
  clear IHb. induction w as [| wj w IHw]; [reflexivity |].
  cbn [map map2]. rewrite IHw. reflexivity.
Qed.

(** The row of the returned matrix at a position holding [xi]. *)
Definition distance_row (entry : list F -> list F -> F) (unused_tokens : list nat)
    (w : tensor2) (xi : list F) : list F :=
  fill_from 0 unused_tokens fsentinel (map (entry xi) w).

Definition selected (row : list F) : nat := snd (min_scan row 0 (hd fzero row) 0).

Definition metric_entry (metric : string) (x : @tensor3 F) (w : @tensor2 F)
  : list F -> list F -> F :=
  if String.eqb metric "l2" then l2_entry x w else cos_entry.

(** Under ['l2'] and ['cos'], for vectors of one dimension, the distance
    matrix exists and holds one entry per position and vocabulary row. *)
Lemma distance_matrix_l2_cos (D : nat) (x : tensor3) (w : tensor2)
    (g : option tensor3) (metric : string) :
  metric = "l2"%string \/ metric = "cos"%string ->
  uniform_dim D x w ->
  distance_matrix x w g metric
  = Ok (map (map (fun xi => map (metric_entry metric x w xi) w)) x).
Proof.
  intros Hmetric Hdim.
  unfold distance_matrix, metric_entry, cdist, cos_distance, bmm_transpose.
  rewrite (same_last_dim_repeat (length x) Hdim).
  destruct Hmetric as [-> | ->]; cbn [String.eqb Ascii.eqb Bool.eqb bind].
  - destruct x as [| xb x]; [reflexivity |].
    rewrite uses_mm_repeat by discriminate.
    rewrite pairwise_repeat by lia. reflexivity.
  - rewrite neg_div_norms_repeat by lia. reflexivity.
Qed.

(** Under ['l2'] and ['cos'], for vectors of one dimension, a non-empty
    vocabulary and excluded ids inside it, the call returns, and what it
    returns is known position by position. *)
Lemma get_closest_tokens_closed_form (D : nat) (x : tensor3)
    (unused_tokens : list nat) (w : tensor2) (g : option tensor3) (metric : string) :
  metric = "l2"%string \/ metric = "cos"%string ->
  uniform_dim D x w ->
  w <> [] ->
  Forall (fun i => i < length w) unused_tokens ->
  get_closest_tokens x unused_tokens w g metric
  = Ok (map (map (distance_row (metric_entry metric x w) unused_tokens w)) x,
        map (map (fun xi =>
          selected (distance_row (metric_entry metric x w) unused_tokens w xi))) x).
Proof.
  intros Hmetric Hdim Hw Hunused.
  unfold get_closest_tokens.
  rewrite (distance_matrix_l2_cos g Hmetric Hdim). cbn [bind].
  assert (Hall : forallb (fun i => Nat.ltb i (length w)) unused_tokens = true).
  { apply forallb_forall. intros i Hi. apply Nat.ltb_lt.
    rewrite Forall_forall in Hunused. auto. }
  assert (Hfill : index_fill (map (map (fun xi => map (metric_entry metric x w xi) w)) x)
                    unused_tokens fsentinel
                  = Ok (map (map (distance_row (metric_entry metric x w) unused_tokens w)) x)).
  { unfold index_fill. rewrite mapM_map. apply mapM_ok_map. intros xb _.
    rewrite mapM_map. apply mapM_ok_map. intros xi _.
    rewrite length_map, Hall. reflexivity. }
  rewrite Hfill. cbn [bind].
  unfold min_dim2. rewrite mapM_map.
  rewrite (mapM_ok_map _
             (map (fun xi =>
                let row := distance_row (metric_entry metric x w) unused_tokens w xi in
                (fst (min_scan row 0 (hd fzero row) 0), selected row)))).
  - cbn [bind]. f_equal. f_equal.
    rewrite map_map. apply map_ext. intros xb.
    rewrite map_map. reflexivity.
  - intros xb _. rewrite mapM_map. apply mapM_ok_map. intros xi _.
    unfold distance_row, selected.
    destruct w as [| w0 w]; [contradiction |]. cbn [map fill_from min_row hd].
    rewrite <- surjective_pairing. reflexivity.
Qed.
End ClosedForm.

(** ** The selected index: the first smallest distance *)

(** Two more facts about [>=]: it is transitive, and it holds between
    numbers only. *)
Class GeLaws (F : Type) `{Scalar F} : Prop := {
  fge_trans : forall a b c : F, fge a b = true -> fge b c = true -> fge a c = true;
  fge_number : forall a b : F, fge a b = true -> fisnan a = false
}.

Lemma SFleb_trans (a b c : spec_float) :
  SFleb a b = true -> SFleb b c = true -> SFleb a c = true.
Proof.
  destruct a as [sa | sa | | sa ma ea], b as [sb | sb | | sb mb eb],
           c as [sc | sc | | sc mc ec];
    unfold SFleb; cbn [SFcompare];
    try discriminate; try reflexivity;
    try (destruct sa, sb, sc; (reflexivity || discriminate));
    try (destruct sa, sb; (reflexivity || discriminate));
    try (destruct sa, sc; (reflexivity || discriminate));
    try (destruct sb, sc; (reflexivity || discriminate)).
  all: change (Pos.compare_cont Eq) with Pos.compare.
  all: destruct sa, sb, sc; try (reflexivity || discriminate).
  all: compare_cases; cbn; try (reflexivity || discriminate); try lia.
Qed.

Lemma SFleb_number (a b : spec_float) : SFleb a b = true -> sf_isnan b = false.
Proof.
  destruct a as [sa | sa | | sa ma ea], b as [sb | sb | | sb mb eb];
    unfold SFleb; cbn [SFcompare sf_isnan]; try reflexivity; discriminate.
Qed.

Lemma ieee_ge_laws (prec emax : Z) : @GeLaws spec_float (ieee prec emax).
Proof.
  split; cbn.
  - intros a b c Hab Hbc. eapply SFleb_trans; eassumption.
  - intros a b. apply SFleb_number.
Qed.

#[export] Instance float32_ge_laws : @GeLaws spec_float float32 := ieee_ge_laws 24 128.

Section FirstMinimum.
Context {F : Type} {S : Scalar F} {OL : @OrderLaws F S} {GL : @GeLaws F S}.

(** Every entry before the returned index is a number that the returned
    value is not [>=]: the returned index is the first of its kind. *)
Lemma min_scan_first (row pre : list F) (best : F) (best_i : nat) :
  Forall (fun x => fge x best = true) pre ->
  (forall j a, j < best_i -> nth_error (pre ++ row) j = Some a -> fge best a = false) ->
  best_i <= length pre ->
  let m := fst (min_scan row (length pre) best best_i) in
  let k := snd (min_scan row (length pre) best best_i) in
  forall j a, j < k -> nth_error (pre ++ row) j = Some a -> fge m a = false.
Proof.
  revert pre best best_i.
  induction row as [| v row IH]; intros pre best best_i Hpre Hbefore Hi; cbn [min_scan].
  - cbn [fst snd]. exact Hbefore.
  - assert (Hsplit : pre ++ v :: row = (pre ++ [v]) ++ row)
      by (rewrite <- app_assoc; reflexivity).
    assert (Hlen : Datatypes.S (length pre) = length (pre ++ [v]))
      by (rewrite length_app, Nat.add_comm; reflexivity).
    assert (Hearlier : fge v best = false ->
              forall j a, j < length pre -> nth_error (pre ++ v :: row) j = Some a ->
                          fge v a = false).
    { intros Hv j a Hj Ha. rewrite nth_error_app1 in Ha by exact Hj.
      destruct (fge v a) eqn:Hva; [| reflexivity].
      rewrite Forall_forall in Hpre.
      rewrite (fge_trans _ _ _ Hva (Hpre a (nth_error_In _ _ Ha))) in Hv.
      discriminate. }
    destruct (fge v best) eqn:Hv; cbn [negb].
    + rewrite Hsplit, Hlen. apply IH.
      * apply Forall_app. split; [exact Hpre |]. constructor; [exact Hv | constructor].
      * rewrite <- Hsplit. exact Hbefore.
      * rewrite <- Hlen. lia.
    + destruct (fisnan v) eqn:Hnan.
      * cbn [fst snd]. intros j a Hj Ha.
        destruct (fge v a) eqn:Hva; [| reflexivity].
        rewrite (fge_number _ _ Hva) in Hnan. discriminate.
      * rewrite Hsplit, Hlen. apply IH.
        -- apply Forall_app. split.
           ++ eapply Forall_impl; [| exact Hpre]. cbn. intros x Hx.
              eapply fge_below; eassumption.
           ++ constructor; [apply fge_refl; exact Hnan | constructor].
        -- rewrite <- Hsplit. apply Hearlier. reflexivity.
        -- rewrite <- Hlen. lia.
Qed.

Lemma min_row_first (row : list F) (m : F) (k : nat) :
  min_row row = Ok (m, k) ->
  forall j a, j < k -> nth_error row j = Some a -> fge m a = false.
Proof.
  destruct row as [| v0 row]; cbn [min_row]; [discriminate |].
  intros E.
  assert (E' : min_scan (v0 :: row) 0 v0 0 = (m, k)) by congruence.
  pose proof (@min_scan_first (v0 :: row) [] v0 0 (Forall_nil _)) as Hs.
  cbn [length app] in Hs. rewrite E' in Hs. cbn [fst snd] in Hs.
  apply Hs; [intros j a Hj; lia | lia].
Qed.

(** Every entry before the returned index is a number. *)
Lemma min_scan_numbers (row pre : list F) (best : F) (best_i : nat) :
  Forall (fun x => fge x best = true) pre ->
  best_i <= length pre ->
  let k := snd (min_scan row (length pre) best best_i) in
  forall j a, j < k -> nth_error (pre ++ row) j = Some a -> fisnan a = false.
Proof.
  revert pre best best_i.
  induction row as [| v row IH]; intros pre best best_i Hpre Hi; cbn [min_scan].
  - cbn [snd]. intros j a _ Ha. rewrite app_nil_r in Ha.
    rewrite Forall_forall in Hpre.
    apply (fge_number a best). apply Hpre. eapply nth_error_In. exact Ha.
  - assert (Hsplit : pre ++ v :: row = (pre ++ [v]) ++ row)
      by (rewrite <- app_assoc; reflexivity).
    assert (Hlen : Datatypes.S (length pre) = length (pre ++ [v]))
      by (rewrite length_app, Nat.add_comm; reflexivity).
    destruct (fge v best) eqn:Hv; cbn [negb].
    + rewrite Hsplit, Hlen. apply IH.
      * apply Forall_app. split; [exact Hpre |]. constructor; [exact Hv | constructor].
      * rewrite <- Hlen. lia.
    + destruct (fisnan v) eqn:Hnan.
      * cbn [snd]. intros j a Hj Ha. rewrite nth_error_app1 in Ha by exact Hj.
        rewrite Forall_forall in Hpre.
        apply (fge_number a best). apply Hpre. eapply nth_error_In. exact Ha.
      * rewrite Hsplit, Hlen. apply IH.
        -- apply Forall_app. split.
           ++ eapply Forall_impl; [| exact Hpre]. cbn. intros x Hx.
              eapply fge_below; eassumption.
           ++ constructor; [apply fge_refl; exact Hnan | constructor].
        -- rewrite <- Hlen. lia.
Qed.

Lemma min_row_numbers (row : list F) (m : F) (k : nat) :
  min_row row = Ok (m, k) ->
  forall j a, j < k -> nth_error row j = Some a -> fisnan a = false.
Proof.
  destruct row as [| v0 row]; cbn [min_row]; [discriminate |].
  intros E.
  assert (E' : min_scan (v0 :: row) 0 v0 0 = (m, k)) by congruence.
  pose proof (@min_scan_numbers (v0 :: row) [] v0 0 (Forall_nil _) (Nat.le_refl 0)) as Hs.
  cbn [length app] in Hs. rewrite E' in Hs. cbn [snd] in Hs. exact Hs.
Qed.

(** [m], at index [k], is the first smallest entry of [row]: the entries
    before it are numbers that [m] is not [>=], and when [m] is a number
    every entry is [>=] it.  When [m] is NaN it is the first NaN of the
    row. *)
Definition first_minimum (row : list F) (k : nat) (m : F) : Prop :=
  nth_error row k = Some m
  /\ (forall j a, j < k -> nth_error row j = Some a ->
        fisnan a = false /\ fge m a = false)
  /\ (fisnan m = false -> forall j a, nth_error row j = Some a -> fge a m = true).

Lemma min_row_first_minimum (row : list F) (m : F) (k : nat) :
  min_row row = Ok (m, k) -> first_minimum row k m.
Proof.
  intros Hmin. split; [apply (min_row_spec _ Hmin) | split].
  - intros j a Hj Ha. split.
    + apply (min_row_numbers _ Hmin Hj Ha).
    + apply (min_row_first _ Hmin Hj Ha).
  - intros Hnum j a Ha.
    destruct (min_row_spec _ Hmin) as [_ [Hnan | Hall]]; [congruence |].
    rewrite Forall_forall in Hall. apply Hall. eapply nth_error_In. exact Ha.
Qed.

(** A row has one first smallest entry. *)
Lemma first_minimum_unique (row : list F) (k j : nat) (m mj : F) :
  first_minimum row k m -> first_minimum row j mj -> k = j.
Proof.
  intros (Hk & Hbefore_k & Hall_k) (Hj & Hbefore_j & Hall_j).
  destruct (lt_eq_lt_dec k j) as [[Hlt | E] | Hgt]; [| exact E |]; exfalso.
  - destruct (Hbefore_j k m Hlt Hk) as [Hnum Hnot].
    rewrite (Hall_k Hnum j mj Hj) in Hnot. discriminate.
  - destruct (Hbefore_k j mj Hgt Hj) as [Hnum Hnot].
    rewrite (Hall_j Hnum k m Hk) in Hnot. discriminate.
Qed.
End FirstMinimum.

(** ** Exact matches *)

(** A number that is neither infinite nor NaN: the difference of an
    infinity or of a NaN with itself is NaN. *)
Definition is_finite {F : Type} `{Scalar F} (a : F) : Prop := fisnan (fsub a a) = false.

(** What zero does in the arithmetic, whatever the rounding: a finite
    number minus itself is [0.0], zeros multiply, add and have an
    absolute value of [0.0], and a multiple of [0.0] that is a number
    adds nothing. *)
Class ZeroLaws (F : Type) `{Scalar F} : Prop := {
  fsub_self : forall a : F, is_finite a -> fsub a a = fzero;
  fmul_zero : fmul (fzero : F) fzero = fzero;
  fadd_zero : fadd (fzero : F) fzero = fzero;
  fabs_zero : fabs (fzero : F) = fzero;
  fadd_fmul_zero : forall c : F,
    fisnan (fmul c fzero) = false -> fadd fzero (fmul c fzero) = fzero
}.

(** What a square root is: [0.0] at [0.0], and never below zero; the
    sentinel [1e9] is above zero. *)
Class RootLaws (F : Type) `{Scalar F} : Prop := {
  fsqrt_zero : fsqrt (fzero : F) = fzero;
  fsqrt_nonneg : forall a : F, fisnan (fsqrt a) = false -> fge (fsqrt a) fzero = true;
  fsentinel_nonneg : fge (fsentinel : F) fzero = true;
  fzero_below_sentinel : fge (fzero : F) fsentinel = false
}.

Section IEEEZero.
Variables prec emax : Z.

Lemma SFsub_self (a : spec_float) :
  sf_isnan (SFsub prec emax a a) = false -> SFsub prec emax a a = S754_zero false.
Proof.
  destruct a as [s | s | | s m e]; cbn [SFsub sf_isnan].
  - destruct s; reflexivity.
  - destruct s; discriminate.
  - discriminate.
  - intros _. rewrite Z.sub_diag. reflexivity.
Qed.

Lemma SFadd_SFmul_zero (c : spec_float) :
  sf_isnan (SFmul prec emax c (S754_zero false)) = false ->
  SFadd prec emax (S754_zero false) (SFmul prec emax c (S754_zero false))
  = S754_zero false.
Proof.
  destruct c as [s | s | | s m e]; cbn [SFmul SFadd sf_isnan]; try discriminate;
    intros _; destruct s; reflexivity.
Qed.

Lemma binary_round_aux_nonneg (m e : Z) (l : location) :
  sf_isnan (binary_round_aux prec emax false m e l) = false ->
  SFleb (S754_zero false) (binary_round_aux prec emax false m e l) = true.
Proof.
  unfold binary_round_aux.
  destruct (shr_fexp prec emax m e l) as [mrs' e'].
  destruct (shr_fexp prec emax _ e' loc_Exact) as [mrs'' e''].
  destruct (shr_m mrs''); [reflexivity | | discriminate].
  destruct (Z.leb _ _); reflexivity.
Qed.

Lemma SFsqrt_nonneg (a : spec_float) :
  sf_isnan (SFsqrt prec emax a) = false ->
  SFleb (S754_zero false) (SFsqrt prec emax a) = true.
Proof.
  destruct a as [s | s | | s m e]; cbn [SFsqrt sf_isnan].
  - reflexivity.
  - destruct s; [discriminate | reflexivity].
  - discriminate.
  - destruct s; [discriminate |].
    destruct (SFsqrt_core_binary prec emax (Z.pos m) e) as [[mz ez] lz].
    apply binary_round_aux_nonneg.
Qed.

Lemma ieee_zero_laws : @ZeroLaws spec_float (ieee prec emax).
Proof.
  split; cbn; try reflexivity.
  - intros a. unfold is_finite. cbn. apply SFsub_self.
  - apply SFadd_SFmul_zero.
Qed.

Lemma ieee_root_laws :
  SFleb (S754_zero false) (sf_of_Z prec emax 1000000000) = true ->
  SFleb (sf_of_Z prec emax 1000000000) (S754_zero false) = false ->
  @RootLaws spec_float (ieee prec emax).
Proof.
  intros Hpos Hbelow. split; cbn.
  - reflexivity.
  - apply SFsqrt_nonneg.
  - exact Hpos.
  - exact Hbelow.
Qed.
End IEEEZero.

#[export] Instance float32_zero_laws : @ZeroLaws spec_float float32 := ieee_zero_laws 24 128.

#[export] Instance float32_root_laws : @RootLaws spec_float float32 :=
  ieee_root_laws 24 128 eq_refl eq_refl.

Section ZeroFacts.
Context {F : Type} {S : Scalar F} {ZL : @ZeroLaws F S}.

Lemma tsum_zeros (l : list F) : Forall (fun a => a = fzero) l -> tsum l = fzero.
Proof.
  unfold tsum. induction 1 as [| a l Ha _ IH]; cbn [fold_left]; [reflexivity |].
  rewrite Ha, fadd_zero. exact IH.
Qed.

Lemma vsub_self (v : list F) :
  Forall is_finite v -> Forall (fun a => a = fzero) (vsub v v).
Proof.
  unfold vsub. induction 1 as [| a v Ha _ IH]; cbn [map2]; constructor; [| exact IH].
  apply fsub_self. exact Ha.
Qed.

Lemma squares_of_zeros (l : list F) :
  Forall (fun a => a = fzero) l -> Forall (fun a => a = fzero) (map square l).
Proof.
  induction 1 as [| a l Ha _ IH]; cbn [map]; constructor; [| exact IH].
  rewrite Ha. apply fmul_zero.
Qed.

Lemma abs_of_zeros (l : list F) :
  Forall (fun a => a = fzero) l -> Forall (fun a => a = fzero) (map fabs l).
Proof.
  induction 1 as [| a l Ha _ IH]; cbn [map]; constructor; [| exact IH].
  rewrite Ha. apply fabs_zero.
Qed.

Lemma sum_squares_self (v : list F) :
  Forall is_finite v -> tsum (map square (vsub v v)) = fzero.
Proof.
  intros Hv. apply tsum_zeros, squares_of_zeros, vsub_self. exact Hv.
Qed.

(** The distance computed from the differences is [0.0] between a finite
    vector and itself. *)
Lemma direct_dist_entry_self {RL : @RootLaws F S} (v : list F) :
  Forall is_finite v -> direct_dist_entry v v = fzero.
Proof.
  intros Hv. unfold direct_dist_entry, norm2.
  rewrite (sum_squares_self Hv). apply fsqrt_zero.
Qed.

(** The summand of a gradient paired with itself. *)
Lemma grad_term_self (args : Args) (g : list F) :
  Forall is_finite g ->
  loss args = "dlg"%string
  \/ (loss args = "tag"%string /\ fisnan (fmul (tag_factor args) fzero) = false) ->
  grad_term args g g = Ok fzero.
Proof.
  intros Hg Hloss. unfold grad_term, elementwise. rewrite Nat.eqb_refl.
  destruct Hloss as [-> | [-> Hfactor]]; cbn [String.eqb Ascii.eqb Bool.eqb bind].
  - f_equal. apply (sum_squares_self Hg).
  - f_equal. fold (vsub g g). rewrite (sum_squares_self Hg).
    rewrite (tsum_zeros (abs_of_zeros (vsub_self Hg))).
    apply fadd_fmul_zero. exact Hfactor.
Qed.

Lemma iadd_zero (ret : pynum) :
  pynum_val ret = fzero -> pynum_val (iadd ret fzero) = fzero.
Proof.
  destruct ret as [r | r]; cbn [pynum_val iadd]; intros ->; apply fadd_zero.
Qed.

Lemma grad_dist_loop_self (args : Args) (gs : list (option (list F)))
    (ret : pynum) (n_g : nat) :
  (forall g, In (Some g) gs -> grad_term args g g = Ok fzero) ->
  pynum_val ret = fzero ->
  exists ret' n_g',
    grad_dist_loop args (combine gs gs) ret n_g = Ok (ret', n_g')
    /\ pynum_val ret' = fzero.
Proof.
  revert ret n_g. induction gs as [| [g |] gs IH]; intros ret n_g Hterm Hret;
    cbn [combine grad_dist_loop].
  - exists ret, n_g. split; [reflexivity | exact Hret].
  - rewrite (Hterm g (or_introl eq_refl)). cbn [bind].
    apply IH; [intros g' Hin; apply Hterm; right; exact Hin | apply iadd_zero; exact Hret].
  - apply IH; [intros g' Hin; apply Hterm; right; exact Hin | exact Hret].
Qed.
End ZeroFacts.

Section ExactMatch.
Context {F : Type} {S : Scalar F} {OL : @OrderLaws F S} {GL : @GeLaws F S}
        {ZL : @ZeroLaws F S} {RL : @RootLaws F S}.

(** On a non-empty row the index [d.min] returns is the one the scan
    returns. *)
Lemma min_row_selected (row : list F) :
  row <> [] -> exists m, min_row row = Ok (m, selected row).
Proof.
  destruct row as [| v0 row]; [contradiction |]. intros _.
  exists (fst (min_scan (v0 :: row) 0 v0 0)).
  unfold selected. cbn [min_row hd]. rewrite <- surjective_pairing. reflexivity.
Qed.

Lemma distance_row_entry (entry : list F -> list F -> F) (unused_tokens : list nat)
    (w : tensor2) (xi wj : list F) (j : nat) :
  nth_error w j = Some wj ->
  nth_error (distance_row entry unused_tokens w xi) j
  = Some (if existsb (Nat.eqb j) unused_tokens then fsentinel else entry xi wj).
Proof.
  intros Hj. unfold distance_row.
  rewrite nth_error_fill_from, nth_error_map, Hj. reflexivity.
Qed.

(** The row the call returns at a position, and the index it returns
    there. *)
Lemma closed_form_position (entry : list F -> list F -> F) (unused_tokens : list nat)
    (x : tensor3) (w : tensor2) (b l : nat) (x_b : list (list F)) (xi : list F) :
  nth_error x b = Some x_b ->
  nth_error x_b l = Some xi ->
  nth_error (nth b (map (map (distance_row entry unused_tokens w)) x) []) l
  = Some (distance_row entry unused_tokens w xi)
  /\ nth_error
       (nth b (map (map (fun xi =>
                 selected (distance_row entry unused_tokens w xi))) x) []) l
     = Some (selected (distance_row entry unused_tokens w xi)).
Proof.
  intros Hb Hl.
  rewrite (nth_error_nth _ _ [] (map_nth_error _ b x Hb)).
  rewrite (nth_error_nth _ _ [] (map_nth_error _ b x Hb)).
  split.
  - exact (map_nth_error (distance_row entry unused_tokens w) l x_b Hl).
  - exact (map_nth_error
             (fun xi => selected (distance_row entry unused_tokens w xi)) l x_b Hl).
Qed.

(** On the route of the differences every recorded distance that is a
    number is at least zero. *)
Lemma direct_row_nonneg (unused_tokens : list nat) (w : tensor2) (xi : list F)
    (i : nat) (a : F) :
  nth_error (distance_row direct_dist_entry unused_tokens w xi) i = Some a ->
  fisnan a = false -> fge a fzero = true.
Proof.
  unfold distance_row. rewrite nth_error_fill_from, nth_error_map.
  destruct (nth_error w i) as [wi |]; [| discriminate]. cbn [option_map Nat.add].
  destruct (existsb (Nat.eqb i) unused_tokens); intros E; inversion E; subst a.
  - intros _. apply fsentinel_nonneg.
  - unfold direct_dist_entry, norm2. apply fsqrt_nonneg.
Qed.
End ExactMatch.



(** In binary32 an exact match need not be the entry selected under
    ['l2'] either: the square of a difference of [2^-100] underflows, so
    an earlier vocabulary row at that distance is recorded at [0.0] as
    well, and it is met first. *)
Example exact_match_underflow_tie :
  get_closest_tokens [[[S754_finite false 8388608 (-123)]]] []
    [[f32 0]; [S754_finite false 8388608 (-123)]] None "l2"
  = Ok ([[[f32 0; f32 0]]], [[0]]).
Proof.
  vm_compute. reflexivity.
Qed.

(** Nor on the matrix-product route, which a vocabulary of more than 25
    rows takes: [4097^2], [4099^2] and [2 * 4097 * 4099] are rounded
    before they are combined, the distance 2 between 4097 and 4099 is
    recorded as [0.0] like the distance of 4097 to itself, and the row met
    first is the one selected. *)
Example exact_match_matrix_product_tie :
  exists d,
    get_closest_tokens [[[f32 4097]]] []
      ([f32 4099] :: [f32 4097] :: repeat [f32 0] 24) None "l2" = Ok (d, [[0]])
    /\ nth_error (nth 0 (nth 0 d []) []) 0 = Some (f32 0)
    /\ nth_error (nth 0 (nth 0 d []) []) 1 = Some (f32 0).
Proof.
  eexists. split; [vm_compute; reflexivity | split; reflexivity].
Qed.


(** * Further properties *)

(** ** [grad_dist]: which pairs count *)

Section GradDistPairs.
Context {F : Type} `{Scalar F}.

Definition both_presentb (p : option (list F) * option (list F)) : bool :=
  match p with
  | (Some _, Some _) => true
  | _ => false
  end.

Lemma grad_dist_loop_filter (args : Args) pairs (ret : pynum) (n_g : nat) :
  grad_dist_loop args (filter both_presentb pairs) ret n_g
  = grad_dist_loop args pairs ret n_g.
Proof.
  revert ret n_g.
  induction pairs as [| [[g1 |] [g2 |]] pairs IH]; intros ret n_g;
    cbn [filter both_presentb grad_dist_loop]; auto.
  destruct (grad_term args g1 g2); cbn [bind]; auto.
Qed.

Lemma combine_fst_snd {A B : Type} (l : list (A * B)) :
  combine (map fst l) (map snd l) = l.
Proof.
  induction l as [| [a b] l IH]; cbn; [reflexivity | rewrite IH; reflexivity].
Qed.

Lemma grad_term_raises (args : Args) (g1 g2 : list F) (e : exn) :
  grad_term args g1 g2 = Raise e -> e = RuntimeError \/ e = AssertionError.
Proof.
  unfold grad_term.
  destruct (String.eqb (loss args) "cos"); [| destruct (String.eqb (loss args) "dlg");
    [| destruct (String.eqb (loss args) "tag")]];
  intros E;
  repeat (apply bind_raise_inv in E as [E | (? & _ & E)];
          [apply elementwise_raises in E; left; exact E |]);
  try discriminate.
  inversion E. right. reflexivity.
Qed.

Lemma grad_dist_loop_raises (args : Args) pairs (ret : pynum) (n_g : nat) (e : exn) :
  grad_dist_loop args pairs ret n_g = Raise e -> e = RuntimeError \/ e = AssertionError.
Proof.
  revert ret n_g.
  induction pairs as [| [[g1 |] [g2 |]] pairs IH]; intros ret n_g; cbn [grad_dist_loop];
    [discriminate | | | |]; try (apply IH).
  intros E. apply bind_raise_inv in E as [E | (t & _ & E)].
  - eapply grad_term_raises; eassumption.
  - eapply IH; eassumption.
Qed.

(** What the loop returns: the accumulators it was given when every pair
    has an absent side, and otherwise a tensor and a larger count. *)
Lemma grad_dist_loop_ok (args : Args) pairs (ret ret' : pynum) (n_g n_g' : nat) :
  grad_dist_loop args pairs ret n_g = Ok (ret', n_g') ->
  (Forall one_absent pairs /\ ret' = ret /\ n_g' = n_g)
  \/ (Exists both_present pairs /\ (exists t, ret' = Tensor0 t) /\ n_g < n_g').
Proof.
  revert ret n_g.
  induction pairs as [| [[g1 |] [g2 |]] pairs IH]; intros ret n_g; cbn [grad_dist_loop].
  - intros E. inversion E. subst. left. auto.
  - intros E. apply bind_ok_inv in E as (t & _ & E). right.
    destruct (IH _ _ E) as [(Hall & -> & ->) | (Hex & Ht & Hn)].
    + split; [apply Exists_cons_hd; exists g1, g2; reflexivity |].
      split; [destruct ret; cbn [iadd]; eauto | lia].
    + split; [apply Exists_cons_hd; exists g1, g2; reflexivity |].
      split; [exact Ht | lia].
  - intros E. destruct (IH _ _ E) as [(Hall & -> & ->) | (Hex & Ht & Hn)].
    + left. split; [constructor; [right; reflexivity | exact Hall] | auto].
    + right. split; [apply Exists_cons_tl; exact Hex | auto].
  - intros E. destruct (IH _ _ E) as [(Hall & -> & ->) | (Hex & Ht & Hn)].
    + left. split; [constructor; [left; reflexivity | exact Hall] | auto].
    + right. split; [apply Exists_cons_tl; exact Hex | auto].
  - intros E. destruct (IH _ _ E) as [(Hall & -> & ->) | (Hex & Ht & Hn)].
    + left. split; [constructor; [left; reflexivity | exact Hall] | auto].
    + right. split; [apply Exists_cons_tl; exact Hex | auto].
Qed.

Lemma absent_or_present (pairs : list (option (list F) * option (list F))) :
  Forall one_absent pairs \/ Exists both_present pairs.
Proof.
  induction pairs as [| p pairs [IH | IH]].
  - left. constructor.
  - destruct p as [[g1 |] [g2 |]].
    + right. apply Exists_cons_hd. exists g1, g2. reflexivity.
    + left. constructor; [right; reflexivity | exact IH].
    + left. constructor; [left; reflexivity | exact IH].
    + left. constructor; [left; reflexivity | exact IH].
  - right. apply Exists_cons_tl. exact IH.
Qed.

Lemma absent_not_present (pairs : list (option (list F) * option (list F))) :
  Forall one_absent pairs -> Exists both_present pairs -> False.
Proof.
  intros Hall Hex. rewrite Forall_forall in Hall. apply Exists_exists in Hex.
  destruct Hex as (p & Hin & Hp). apply (one_absent_not_both p); auto.
Qed.
End GradDistPairs.

(** X1.  Pairs with an absent side have no influence on [grad_dist]: the
    result, failures included, is the one obtained from the two
    collections reduced to the pairs whose two sides are present, under
    every metric name (for ['cos'] the averaging count is that of the
    present pairs). *)
Theorem grad_dist_ignores_absent_pairs
    {F : Type} `{Scalar F} (grads1 grads2 : list (option (list F))) (args : Args) :
  let present := filter both_presentb (combine grads1 grads2) in
  grad_dist (map fst present) (map snd present) args = grad_dist grads1 grads2 args.
Proof.
  intros present. subst present. unfold grad_dist.
  rewrite combine_fst_snd, grad_dist_loop_filter. reflexivity.
Qed.

(** X2.  Collections of different lengths are not an error: [zip] stops at
    the shorter one, and the elements beyond its length are never read. *)
Theorem grad_dist_truncates_to_shorter
    {F : Type} `{Scalar F} (grads1 grads2 : list (option (list F))) (args : Args) :
  let n := Nat.min (length grads1) (length grads2) in
  grad_dist grads1 grads2 args = grad_dist (firstn n grads1) (firstn n grads2) args.
Proof.
  intros n. unfold grad_dist.
  rewrite <- combine_firstn, firstn_all2; [reflexivity |].
  rewrite length_combine. subst n. lia.
Qed.

(** X3.  [grad_dist] fails with a division by zero exactly under ['cos']
    with no pair whose two sides are present; in particular never under
    another metric name, and never as soon as one pair is present. *)
Theorem grad_dist_zero_division
    {F : Type} `{Scalar F} (grads1 grads2 : list (option (list F))) (args : Args) :
  grad_dist grads1 grads2 args = Raise ZeroDivisionError <->
  loss args = "cos"%string /\ Forall one_absent (combine grads1 grads2).
Proof.
  unfold grad_dist. split.
  - intros E. apply bind_raise_inv in E as [E | ([ret n_g] & Hloop & E)].
    + apply grad_dist_loop_raises in E as [E | E]; discriminate.
    + destruct (String.eqb_spec (loss args) "cos") as [Hcos | _]; [| discriminate].
      split; [exact Hcos |].
      apply grad_dist_loop_ok in Hloop as [(Hall & _) | (_ & (t & ->) & _)];
        [exact Hall | discriminate].
  - intros [Hcos Hall]. rewrite grad_dist_loop_skips by exact Hall.
    cbn [bind]. rewrite Hcos. reflexivity.
Qed.

(** X4.  A call that returns gives back the Python float [0.0] it started
    from when no pair has its two sides present (so not a tensor, whatever
    the metric), and a 0-dim tensor as soon as one pair is present. *)
Theorem grad_dist_result_kind
    {F : Type} `{Scalar F} (grads1 grads2 : list (option (list F))) (args : Args)
    (r : pynum) :
  grad_dist grads1 grads2 args = Ok r ->
  (Forall one_absent (combine grads1 grads2) /\ r = PyFloat fzero)
  \/ (Exists both_present (combine grads1 grads2) /\ exists t, r = Tensor0 t).
Proof.
  unfold grad_dist. intros E.
  apply bind_ok_inv in E as ([ret n_g] & Hloop & E).
  apply grad_dist_loop_ok in Hloop as [(Hall & -> & ->) | (Hex & (t & ->) & Hn)].
  - left. split; [exact Hall |].
    destruct (String.eqb (loss args) "cos"); [discriminate | congruence].
  - right. split; [exact Hex |].
    destruct (String.eqb (loss args) "cos"); [| inversion E; eauto].
    cbn [idiv] in E. inversion E. eauto.
Qed.

Lemma grad_dist_result_kind_witness :
  (Forall one_absent (combine [None; Some [f32 1]] [Some [f32 2]; None])
   /\ PyFloat fzero = PyFloat (fzero : spec_float))
  \/ (Exists both_present (combine [None; Some [f32 1]] [Some [f32 2]; None])
      /\ exists t, PyFloat fzero = Tensor0 (t : spec_float)).
Proof.
  apply (@grad_dist_result_kind spec_float float32
           [None; Some [f32 1]] [Some [f32 2]; None]
           {| loss := "dlg"; tag_factor := f32 1 |} (PyFloat fzero)).
  reflexivity.
Defined.

(** ** [get_reconstruction_loss] at the target gradients *)

(** X6.  A candidate whose gradients are the target gradients has
    reconstruction loss [0.0] under ['dlg'], and under ['tag'] with a
    finite factor: when every component of every present gradient is
    finite, [get_reconstruction_loss] returns, and the value it returns is
    [0.0]. *)
Theorem reconstruction_loss_zero_at_target
    {F : Type} {S : Scalar F} {ZL : @ZeroLaws F S}
    (Model Labels : Type)
    (autograd_grad : Model -> @tensor3 F -> Labels -> list (option (list F)))
    (model : Model) (x_embeds : @tensor3 F) (y_labels : Labels)
    (true_grads : list (option (list F))) (args : Args) (create_graph : bool) :
  compute_grads autograd_grad model x_embeds y_labels create_graph = true_grads ->
  (forall g, In (Some g) true_grads -> Forall is_finite g) ->
  loss args = "dlg"%string
  \/ (loss args = "tag"%string /\ fisnan (fmul (tag_factor args) fzero) = false) ->
  exists r,
    get_reconstruction_loss autograd_grad model x_embeds y_labels true_grads args
      create_graph = Ok r
    /\ pynum_val r = fzero.
Proof.
  intros Hgrads Hfin Hloss. unfold get_reconstruction_loss. rewrite Hgrads.
  unfold grad_dist.
  destruct (@grad_dist_loop_self F S ZL args true_grads (PyFloat fzero) 0)
    as (ret & n_g & Hloop & Hval).
  - intros g Hin. apply grad_term_self; [apply Hfin; exact Hin | exact Hloss].
  - reflexivity.
  - rewrite Hloop. cbn [bind].
    assert (Hcos : String.eqb (loss args) "cos" = false)
      by (destruct Hloss as [-> | [-> _]]; reflexivity).
    rewrite Hcos. exists ret. split; [reflexivity | exact Hval].
Qed.

Lemma reconstruction_loss_zero_at_target_witness :
  exists r,
    get_reconstruction_loss (fun (_ : unit) (_ : @tensor3 spec_float) (_ : unit) =>
                               [Some [f32 3; f32 4]; None; Some [SFopp (f32 2)]])
      tt [] tt [Some [f32 3; f32 4]; None; Some [SFopp (f32 2)]]
      {| loss := "tag"; tag_factor := f32 2 |} false = Ok r
    /\ pynum_val r = fzero.
Proof.
  apply (@reconstruction_loss_zero_at_target spec_float float32 float32_zero_laws
           unit unit
           (fun _ _ _ => [Some [f32 3; f32 4]; None; Some [SFopp (f32 2)]])
           tt [] tt [Some [f32 3; f32 4]; None; Some [SFopp (f32 2)]]
           {| loss := "tag"; tag_factor := f32 2 |} false).
  - reflexivity.
  - intros g [E | [E | [E | []]]]; inversion E; repeat constructor.
  - right. split; reflexivity.
Defined.

(** ** [get_closest_tokens]: the selected index *)

(** X7.  At every position of a call that returns, the returned index is
    that of the first smallest entry of the row of the returned distance
    matrix: it points into the row; every entry before it is a number that
    the selected distance is not [>=]; and when the selected distance is a
    number, every entry of the row is [>=] it.  When the selected distance
    is NaN it is the first NaN of the row, which is selected over any
    number. *)
Theorem selected_token_is_first_minimum
    {F : Type} {S : Scalar F} {OL : @OrderLaws F S} {GL : @GeLaws F S}
    (inputs_embeds : tensor3) (unused_tokens : list nat)
    (embeddings_weight : tensor2) (grads : option tensor3) (metric : string)
    (d : tensor3) (token_indices : list (list nat))
    (b l : nat) (d_b : list (list F)) (row : list F) :
  get_closest_tokens inputs_embeds unused_tokens embeddings_weight grads metric
    = Ok (d, token_indices) ->
  nth_error d b = Some d_b ->
  nth_error d_b l = Some row ->
  exists k m,
    nth_error (nth b token_indices []) l = Some k
    /\ nth_error row k = Some m
    /\ (forall j a, j < k -> nth_error row j = Some a ->
          fisnan a = false /\ fge m a = false)
    /\ (fisnan m = false -> forall j a, nth_error row j = Some a -> fge a m = true).
Proof.
  intros Hcall Hb Hl.
  apply get_closest_tokens_ok_inv in Hcall as (d0 & ms & _ & _ & Hmin & ->).
  apply mapM_ok_inv in Hmin.
  destruct (Forall2_nth_error_l _ Hmin Hb) as (m_b & Hm_b & Hmin_b).
  apply mapM_ok_inv in Hmin_b.
  destruct (Forall2_nth_error_l _ Hmin_b Hl) as ([m k] & Hm_l & Hmin_l).
  exists k, m. split.
  - rewrite (nth_error_nth _ _ [] (map_nth_error (map snd) b ms Hm_b)).
    rewrite nth_error_map, Hm_l. reflexivity.
  - exact (min_row_first_minimum _ Hmin_l).
Qed.

Lemma selected_token_is_first_minimum_witness :
  get_closest_tokens [[[f32 1; f32 0]]] []
    [[f32 0; f32 1]; [f32 2; f32 0]; [f32 1; f32 0]] None "cos"
  = Ok ([[[SFopp (f32 0); SFopp (f32 1); SFopp (f32 1)]]], [[1]])
  /\ exists k m,
       nth_error (nth 0 [[1]] []) 0 = Some k
       /\ nth_error [SFopp (f32 0); SFopp (f32 1); SFopp (f32 1)] k = Some m
       /\ (forall j a, j < k ->
             nth_error [SFopp (f32 0); SFopp (f32 1); SFopp (f32 1)] j = Some a ->
             fisnan a = false /\ fge m a = false)
       /\ (fisnan m = false -> forall j a,
             nth_error [SFopp (f32 0); SFopp (f32 1); SFopp (f32 1)] j = Some a ->
             fge a m = true).
Proof.
  split; [reflexivity |].
  apply (@selected_token_is_first_minimum spec_float float32 float32_order_laws
           float32_ge_laws [[[f32 1; f32 0]]] []
           [[f32 0; f32 1]; [f32 2; f32 0]; [f32 1; f32 0]] None "cos"
           [[[SFopp (f32 0); SFopp (f32 1); SFopp (f32 1)]]] [[1]] 0 0
           [[SFopp (f32 0); SFopp (f32 1); SFopp (f32 1)]]
           [SFopp (f32 0); SFopp (f32 1); SFopp (f32 1)]);
    reflexivity.
Defined.

(** ** [get_closest_tokens]: what is returned, and when it fails *)

Lemma mapM_raise_some {A B : Type} (f : A -> result B) (l : list A) (e : exn) :
  (forall a, In a l -> f a = Raise e \/ exists v, f a = Ok v) ->
  (exists a, In a l /\ f a = Raise e) ->
  mapM f l = Raise e.
Proof.
  induction l as [| a l IH]; intros Hall (a' & Hin & Ha'); [contradiction |].
  cbn [mapM].
  destruct (Hall a (or_introl eq_refl)) as [E | (v & E)]; rewrite E; [reflexivity |].
  cbn [bind]. rewrite IH; [reflexivity | |].
  - intros x Hx. apply Hall. right. exact Hx.
  - destruct Hin as [-> | Hin]; [congruence |]. exists a'. split; assumption.
Qed.

Section Returned.
Context {F : Type} `{Scalar F}.

Lemma length_fill_from (j : nat) (unused_tokens : list nat) (v : F) (row : list F) :
  length (fill_from j unused_tokens v row) = length row.
Proof.
  revert j. induction row as [| a row IH]; intros j; cbn; [reflexivity |].
  rewrite IH. reflexivity.
Qed.

(** The scan returns the index it was given or one it has met. *)
Lemma min_scan_index (row : list F) (i : nat) (best : F) (best_i : nat) :
  snd (min_scan row i best best_i) = best_i
  \/ (i <= snd (min_scan row i best best_i) < i + length row).
Proof.
  revert i best best_i. induction row as [| v row IH]; intros i best best_i;
    cbn [min_scan length]; [left; reflexivity |].
  destruct (negb (fge v best)).
  - destruct (fisnan v); [right; cbn; lia |].
    destruct (IH (Datatypes.S i) v i) as [-> | Hk]; right; lia.
  - destruct (IH (Datatypes.S i) best best_i) as [-> | Hk]; [left; reflexivity | right; lia].
Qed.

Lemma selected_in_range (row : list F) : row <> [] -> selected row < length row.
Proof.
  intros Hrow. unfold selected.
  destruct (min_scan_index row 0 (hd fzero row) 0) as [-> | Hk]; [| lia].
  destruct row; [contradiction | cbn; lia].
Qed.

(** The mask [d[:, :, unused_tokens] = 1e9] fails on every row that an
    excluded id overshoots. *)
Lemma index_fill_out_of_range (d : tensor3) (unused_tokens : list nat) (n : nat) :
  Forall (Forall (fun row => length row = n)) d ->
  Exists (fun i => n <= i) unused_tokens ->
  Exists (fun d_b => d_b <> []) d ->
  index_fill d unused_tokens fsentinel = Raise IndexError.
Proof.
  intros Hshape Hout Hsome. unfold index_fill.
  assert (Hcheck : forallb (fun i => Nat.ltb i n) unused_tokens = false).
  { apply Exists_exists in Hout as (i & Hin & Hi).
    destruct (forallb _ unused_tokens) eqn:E; [| reflexivity].
    rewrite forallb_forall in E. specialize (E i Hin). apply Nat.ltb_lt in E. lia. }
  rewrite Forall_forall in Hshape.
  assert (Hrows : forall d_b, In d_b d ->
            mapM (fun row => if forallb (fun i => Nat.ltb i (length row)) unused_tokens
                             then Ok (fill_from 0 unused_tokens fsentinel row)
                             else Raise IndexError) d_b
            = match d_b with [] => Ok [] | _ :: _ => Raise IndexError end).
  { intros d_b Hin. specialize (Hshape d_b Hin). rewrite Forall_forall in Hshape.
    destruct d_b as [| row d_b]; [reflexivity |].
    cbn [mapM]. rewrite (Hshape row (or_introl eq_refl)), Hcheck. reflexivity. }
  apply mapM_raise_some.
  - intros d_b Hin. rewrite (Hrows d_b Hin).
    destruct d_b; [right; eauto | left; reflexivity].
  - apply Exists_exists in Hsome as (d_b & Hin & Hne). exists d_b.
    split; [exact Hin |]. rewrite (Hrows d_b Hin).
    destruct d_b; [contradiction | reflexivity].
Qed.
End Returned.

(** X8.  Under ['l2'] and ['cos'], for vectors of one dimension and an
    input with at least one position, [get_closest_tokens] raises an index
    error when an excluded id lies outside the vocabulary, and when the
    vocabulary is empty. *)
Theorem get_closest_tokens_index_error
    {F : Type} `{Scalar F} (D : nat) (inputs_embeds : tensor3)
    (unused_tokens : list nat) (embeddings_weight : tensor2) (grads : option tensor3)
    (metric : string) (b l : nat) (x_b : list (list F)) (xi : list F) :
  metric = "l2"%string \/ metric = "cos"%string ->
  uniform_dim D inputs_embeds embeddings_weight ->
  nth_error inputs_embeds b = Some x_b ->
  nth_error x_b l = Some xi ->
  Exists (fun i => length embeddings_weight <= i) unused_tokens
  \/ embeddings_weight = [] ->
  get_closest_tokens inputs_embeds unused_tokens embeddings_weight grads metric
  = Raise IndexError.
Proof.
  intros Hmetric Hdim Hb Hl Hbad. unfold get_closest_tokens.
  rewrite (distance_matrix_l2_cos grads Hmetric Hdim). cbn [bind].
  assert (Hshape : Forall (Forall (fun row : list F => length row = length embeddings_weight))
                     (map (map (fun xi => map (metric_entry metric inputs_embeds embeddings_weight xi)
                                             embeddings_weight))
                          inputs_embeds)).
  { apply Forall_forall. intros d_b Hin. apply in_map_iff in Hin as (xb & <- & _).
    apply Forall_forall. intros row Hin. apply in_map_iff in Hin as (xj & <- & _).
    apply length_map. }
  assert (Hsome : Exists (fun d_b : list (list F) => d_b <> [])
                    (map (map (fun xi => map (metric_entry metric inputs_embeds embeddings_weight xi)
                                             embeddings_weight))
                         inputs_embeds)).
  { apply Exists_exists. eexists. split.
    - apply in_map. eapply nth_error_In. exact Hb.
    - destruct x_b; [destruct l; discriminate | discriminate]. }
  destruct (Exists_dec (fun i => length embeddings_weight <= i) unused_tokens
              (fun i => le_dec (length embeddings_weight) i)) as [Hout | Hin].
  - rewrite (index_fill_out_of_range Hshape Hout Hsome). reflexivity.
  - destruct Hbad as [Hout | ->]; [contradiction |].
    assert (Hnil : unused_tokens = []).
    { destruct unused_tokens as [| i u]; [reflexivity |].
      exfalso. apply Hin. apply Exists_cons_hd. cbn. lia. }
    subst unused_tokens. unfold index_fill. cbn [forallb map].
    rewrite mapM_map.
    rewrite (mapM_ok_map _ (map (fun _ : list F => @nil F))).
    + cbn [bind]. unfold min_dim2.
      rewrite (@mapM_raise_some _ _ (mapM min_row) _ IndexError); [reflexivity | |].
      * intros d_b Hd. apply in_map_iff in Hd as (xb & <- & _).
        destruct xb; [right; eexists; reflexivity | left; reflexivity].
      * exists (map (fun _ : list F => @nil F) x_b). split.
        -- apply in_map. eapply nth_error_In. exact Hb.
        -- destruct x_b; [destruct l; discriminate | reflexivity].
    + intros xb _. rewrite mapM_map. apply mapM_ok_map. reflexivity.
Qed.

Lemma get_closest_tokens_index_error_witness :
  get_closest_tokens [[[f32 1; f32 0]]] [0; 2] [[f32 1; f32 0]; [f32 0; f32 1]] None "cos"
  = Raise IndexError
  /\ get_closest_tokens [[[f32 1; f32 0]]] [] [] None "l2" = Raise IndexError.
Proof.
  split.
  - apply (@get_closest_tokens_index_error spec_float float32 2 [[[f32 1; f32 0]]] [0; 2]
             [[f32 1; f32 0]; [f32 0; f32 1]] None "cos" 0 0 [[f32 1; f32 0]]
             [f32 1; f32 0]);
      try reflexivity.
    + right. reflexivity.
    + split; repeat constructor.
    + left. apply Exists_cons_tl, Exists_cons_hd. cbn. lia.
  - apply (@get_closest_tokens_index_error spec_float float32 2 [[[f32 1; f32 0]]] []
             [] None "l2" 0 0 [[f32 1; f32 0]] [f32 1; f32 0]);
      try reflexivity.
    + left. reflexivity.
    + split; repeat constructor.
    + right. reflexivity.
Defined.

(** The result of a call whose distance matrix has entry [entry xi wj]
    for position vector [xi] and vocabulary row [wj], position by
    position. *)
Definition returns_entries {F : Type} `{Scalar F} (x : @tensor3 F)
    (unused_tokens : list nat) (w : @tensor2 F)
    (outcome : result (@tensor3 F * list (list nat)))
    (entry : list F -> list F -> F) : Prop :=
  exists d ids,
    outcome = Ok (d, ids)
    /\ length d = length x
    /\ length ids = length x
    /\ forall b x_b, nth_error x b = Some x_b ->
         length (nth b d []) = length x_b
         /\ length (nth b ids []) = length x_b
         /\ forall l xi, nth_error x_b l = Some xi ->
              length (nth l (nth b d []) []) = length w
              /\ (exists k, nth_error (nth b ids []) l = Some k /\ k < length w)
              /\ forall j wj, nth_error w j = Some wj ->
                   nth_error (nth l (nth b d []) []) j
                   = Some (if existsb (Nat.eqb j) unused_tokens then fsentinel
                           else entry xi wj).

Lemma closed_form_returns_entries {F : Type} `{Scalar F} (x : @tensor3 F)
    (unused_tokens : list nat) (w : @tensor2 F) (entry : list F -> list F -> F) :
  w <> [] ->
  returns_entries x unused_tokens w
    (Ok (map (map (distance_row entry unused_tokens w)) x,
         map (map (fun xi => selected (distance_row entry unused_tokens w xi))) x))
    entry.
Proof.
  intros Hw. eexists. eexists. split; [reflexivity |].
  split; [apply length_map | split; [apply length_map |]].
  intros b x_b Hb.
  rewrite (nth_error_nth _ _ [] (map_nth_error _ b x Hb)).
  rewrite (nth_error_nth _ _ [] (map_nth_error _ b x Hb)).
  split; [apply length_map | split; [apply length_map |]].
  intros l xi Hl.
  rewrite (nth_error_nth _ _ [] (map_nth_error _ l x_b Hl)).
  assert (Hlen : length (distance_row entry unused_tokens w xi) = length w).
  { unfold distance_row. rewrite length_fill_from. apply length_map. }
  split; [exact Hlen | split].
  - exists (selected (distance_row entry unused_tokens w xi)). split.
    + exact (map_nth_error
               (fun xi => selected (distance_row entry unused_tokens w xi)) l x_b Hl).
    + rewrite <- Hlen. apply selected_in_range.
      intros E. rewrite E in Hlen. destruct w; [contradiction | discriminate].
  - intros j wj Hj. unfold distance_row.
    rewrite nth_error_fill_from, nth_error_map, Hj. reflexivity.
Qed.

(** X9.  Under ['l2'] and ['cos'], for vectors of one dimension, a
    non-empty vocabulary and excluded ids inside it, the call returns.
    The returned tensors have the layout of the input: one row of
    distances and one index per position, one distance per vocabulary row.
    The returned matrix is the distance matrix of the metric with the
    entries of the excluded ids replaced by [1e9] and the others left as
    they are.  Every returned index is smaller than the vocabulary
    size. *)
Theorem get_closest_tokens_returns_entries
    {F : Type} `{Scalar F} (D : nat) (inputs_embeds : tensor3)
    (unused_tokens : list nat) (embeddings_weight : tensor2) (grads : option tensor3)
    (metric : string) :
  metric = "l2"%string \/ metric = "cos"%string ->
  uniform_dim D inputs_embeds embeddings_weight ->
  embeddings_weight <> [] ->
  Forall (fun i => i < length embeddings_weight) unused_tokens ->
  exists d0 d ids,
    distance_matrix inputs_embeds embeddings_weight grads metric = Ok d0
    /\ get_closest_tokens inputs_embeds unused_tokens embeddings_weight grads metric
       = Ok (d, ids)
    /\ length d = length inputs_embeds
    /\ length ids = length inputs_embeds
    /\ forall b x_b, nth_error inputs_embeds b = Some x_b ->
         length (nth b d []) = length x_b
         /\ length (nth b ids []) = length x_b
         /\ forall l xi, nth_error x_b l = Some xi ->
              length (nth l (nth b d []) []) = length embeddings_weight
              /\ (exists k, nth_error (nth b ids []) l = Some k
                            /\ k < length embeddings_weight)
              /\ forall j, j < length embeddings_weight ->
                   nth_error (nth l (nth b d []) []) j
                   = if existsb (Nat.eqb j) unused_tokens then Some fsentinel
                     else nth_error (nth l (nth b d0 []) []) j.
Proof.
  intros Hmetric Hdim Hw Hunused.
  pose proof (closed_form_returns_entries inputs_embeds unused_tokens
                (metric_entry metric inputs_embeds embeddings_weight) Hw)
    as (d & ids & Hcall & Hd & Hids & Hrows).
  rewrite <- (get_closest_tokens_closed_form grads Hmetric Hdim Hw Hunused) in Hcall.
  eexists. exists d, ids.
  split; [exact (distance_matrix_l2_cos grads Hmetric Hdim) |].
  split; [exact Hcall | split; [exact Hd | split; [exact Hids |]]].
  intros b x_b Hb. destruct (Hrows b x_b Hb) as (Hlen_d & Hlen_ids & Hpos).
  split; [exact Hlen_d | split; [exact Hlen_ids |]].
  intros l xi Hl. destruct (Hpos l xi Hl) as (Hrow & Hk & Hentries).
  split; [exact Hrow | split; [exact Hk |]].
  intros j Hj.
  destruct (nth_error embeddings_weight j) as [wj |] eqn:Hwj;
    [| apply nth_error_None in Hwj; lia].
  rewrite (Hentries j wj Hwj).
  rewrite (nth_error_nth _ _ [] (map_nth_error _ b inputs_embeds Hb)).
  rewrite (nth_error_nth _ _ [] (map_nth_error _ l x_b Hl)).
  rewrite nth_error_map, Hwj.
  destruct (existsb (Nat.eqb j) unused_tokens); reflexivity.
Qed.

Lemma get_closest_tokens_returns_entries_witness :
  get_closest_tokens [[[f32 1; f32 0]]] [1]
    [[f32 1; f32 0]; [f32 0; f32 1]; [f32 4; f32 4]] None "l2"
  = Ok ([[[f32 0; f32 1000000000; f32 5]]], [[0]])
  /\ exists d0 d ids,
       distance_matrix [[[f32 1; f32 0]]]
         [[f32 1; f32 0]; [f32 0; f32 1]; [f32 4; f32 4]] None "l2" = Ok d0
       /\ get_closest_tokens [[[f32 1; f32 0]]] [1]
            [[f32 1; f32 0]; [f32 0; f32 1]; [f32 4; f32 4]] None "l2" = Ok (d, ids)
       /\ length d = 1
       /\ length ids = 1
       /\ forall b x_b, nth_error [[[f32 1; f32 0]]] b = Some x_b ->
            length (nth b d []) = length x_b
            /\ length (nth b ids []) = length x_b
            /\ forall l xi, nth_error x_b l = Some xi ->
                 length (nth l (nth b d []) []) = 3
                 /\ (exists k, nth_error (nth b ids []) l = Some k /\ k < 3)
                 /\ forall j, j < 3 ->
                      nth_error (nth l (nth b d []) []) j
                      = if existsb (Nat.eqb j) [1] then Some fsentinel
                        else nth_error (nth l (nth b d0 []) []) j.
Proof.
  split; [vm_compute; reflexivity |].
  apply (@get_closest_tokens_returns_entries spec_float float32 2
           [[[f32 1; f32 0]]] [1]
           [[f32 1; f32 0]; [f32 0; f32 1]; [f32 4; f32 4]] None "l2").
  - left. reflexivity.
  - split; repeat constructor.
  - discriminate.
  - repeat constructor.
Defined.

(** ** [get_closest_tokens] under ['grad_align'] *)

Section GradAlign.
Context {F : Type} `{Scalar F}.

Lemma nth_error_map2 {A B C : Type} (f : A -> B -> C) (l1 : list A) (l2 : list B)
    (i : nat) (a : A) (b : B) :
  nth_error l1 i = Some a -> nth_error l2 i = Some b ->
  nth_error (map2 f l1 l2) i = Some (f a b).
Proof.
  revert l2 i. induction l1 as [| a1 l1 IH]; intros [| b1 l2] [| i]; cbn;
    try discriminate.
  - intros E1 E2. inversion E1. inversion E2. reflexivity.
  - apply IH.
Qed.

Lemma nth_error_concat_repeat {A : Type} (w : list A) (n c j : nat) (a : A) :
  c < n -> nth_error w j = Some a ->
  nth_error (concat (repeat w n)) (c * length w + j) = Some a.
Proof.
  revert c. induction n as [| n IH]; intros c Hc Hj; [lia |].
  cbn [repeat concat].
  assert (Hjl : j < length w) by (apply nth_error_Some; congruence).
  destruct c as [| c].
  - cbn [Nat.mul Nat.add]. rewrite nth_error_app1 by exact Hjl. exact Hj.
  - rewrite nth_error_app2 by (cbn; lia).
    replace (Datatypes.S c * length w + j - length w) with (c * length w + j)
      by (cbn; lia).
    apply IH; [lia | exact Hj].
Qed.

Lemma length_concat_repeat {A : Type} (w : list A) (n : nat) :
  length (concat (repeat w n)) = n * length w.
Proof.
  induction n as [| n IH]; [reflexivity |].
  cbn [repeat concat]. rewrite length_app, IH. reflexivity.
Qed.

(** The distance matrix of ['grad_align'], when it exists, is laid out
    along the broadcast vocabulary axis. *)
Lemma grad_align_distance_ok (x : tensor3) (w : tensor2) (g d0 : tensor3) :
  grad_align_distance x w g = Ok d0 ->
  exists vocab,
    broadcast_vocab x w = Ok vocab
    /\ d0 = map2 (fun xb gb =>
                    map2 (fun xi gi => map (grad_align_entry xi gi) vocab) xb gb) x g.
Proof.
  unfold grad_align_distance. intros E.
  apply bind_ok_inv in E as (vocab & Hv & E).
  exists vocab. split; [exact Hv |].
  destruct (_ && _); [inversion E; reflexivity | discriminate].
Qed.

Lemma index_fill_row (d0 d : tensor3) (unused_tokens : list nat) (v : F)
    (b l : nat) (d0_b : list (list F)) (row0 : list F) :
  index_fill d0 unused_tokens v = Ok d ->
  nth_error d0 b = Some d0_b ->
  nth_error d0_b l = Some row0 ->
  exists d_b,
    nth_error d b = Some d_b
    /\ nth_error d_b l = Some (fill_from 0 unused_tokens v row0).
Proof.
  unfold index_fill. intros Hfill Hb Hl.
  apply mapM_ok_inv in Hfill.
  destruct (Forall2_nth_error_l _ Hfill Hb) as (d_b & Hd_b & Hfill_b).
  apply mapM_ok_inv in Hfill_b.
  destruct (Forall2_nth_error_l _ Hfill_b Hl) as (row & Hrow & E).
  exists d_b. split; [exact Hd_b |].
  destruct (forallb _ unused_tokens); [| discriminate].
  inversion E. subst. exact Hrow.
Qed.
End GradAlign.

(** X10.  Under ['grad_align'] with a gradient tensor, a batch of [B]
    sequences of length [L] with [B <> 1], [L <> B] and [L <> 1] makes the
    call fail with a shape error: the subtraction of line 58 aligns the
    batch axis of the repeated vocabulary with the sequence axis of the
    input. *)
Theorem grad_align_batch_shape_error
    {F : Type} `{Scalar F} (inputs_embeds : tensor3) (unused_tokens : list nat)
    (embeddings_weight : tensor2) (grads : tensor3) :
  length inputs_embeds <> 1 ->
  seq_len inputs_embeds <> length inputs_embeds ->
  seq_len inputs_embeds <> 1 ->
  get_closest_tokens inputs_embeds unused_tokens embeddings_weight (Some grads) "grad_align"
  = Raise RuntimeError.
Proof.
  intros HB HLB HL.
  unfold get_closest_tokens, distance_matrix, grad_align_distance, broadcast_vocab.
  cbn [String.eqb Ascii.eqb Bool.eqb].
  destruct (Nat.eqb_spec (length inputs_embeds) 1) as [E | _]; [contradiction |].
  destruct (Nat.eqb_spec (seq_len inputs_embeds) (length inputs_embeds)) as [E | _];
    [contradiction |].
  destruct (Nat.eqb_spec (seq_len inputs_embeds) 1) as [E | _]; [contradiction |].
  reflexivity.
Qed.

Lemma grad_align_batch_shape_error_witness :
  get_closest_tokens
    [[[f32 1]; [f32 2]; [f32 3]]; [[f32 4]; [f32 5]; [f32 6]]] []
    [[f32 1]; [f32 2]]
    (Some [[[f32 1]; [f32 1]; [f32 1]]; [[f32 1]; [f32 1]; [f32 1]]]) "grad_align"
  = Raise RuntimeError.
Proof.
  apply (@grad_align_batch_shape_error spec_float float32
           [[[f32 1]; [f32 2]; [f32 3]]; [[f32 4]; [f32 5]; [f32 6]]] []
           [[f32 1]; [f32 2]]
           [[[f32 1]; [f32 1]; [f32 1]]; [[f32 1]; [f32 1]; [f32 1]]]);
    cbn; lia.
Defined.



(** ** [fix_special_tokens] with pad boundaries *)

Section PadFacts.
Variable A : Type.
Variables CLS SEP PAD : nat.

(** What one iteration of the loop writes to the sequence it handles,
    once the boundary index [p - 1] is normalised to [k]. *)
Definition pad_row (pad sep : A) (p : Z) (k : nat) (row : list A) : list A :=
  set_nth k sep (set_from (slice_start (length row) p) pad row).

(** One iteration of the loop, on sequence [b]. *)
Definition pad_step (w : list A) (pads : list Z) (b : nat) (x : embeds A)
  : embeds A * result unit :=
  match nth_error w PAD, nth_error pads b, nth_error x b with
  | Some pad, Some p, Some row =>
      let x1 := set_nth b (set_from (slice_start (length row) p) pad row) x in
      match nth_error w SEP with
      | Some sep =>
          match py_index (length row) (p - 1) with
          | Ok k => (set_nth b (pad_row pad sep p k row) x, Ok tt)
          | Raise e => (x1, Raise e)
          end
      | None => (x1, Raise IndexError)
      end
  | _, _, _ => (x, Raise IndexError)
  end.

Lemma length_set_from (s : nat) (v : A) (row : list A) :
  length (set_from s v row) = length row.
Proof.
  unfold set_from. rewrite length_app, length_firstn, repeat_length. lia.
Qed.

Lemma length_pad_row (pad sep : A) (p : Z) (k : nat) (row : list A) :
  length (pad_row pad sep p k row) = length row.
Proof. unfold pad_row. rewrite length_set_nth. apply length_set_from. Qed.

Lemma set_nth_twice {B : Type} (i : nat) (v v' : B) (l : list B) :
  set_nth i v' (set_nth i v l) = set_nth i v' l.
Proof.
  revert i. induction l as [| a l IH]; intros [| i]; cbn; try reflexivity.
  rewrite IH. reflexivity.
Qed.

Lemma pad_loop_cons (w : list A) (pads : list Z) (b : nat) (rest : list nat)
    (x : embeds A) :
  pad_loop SEP PAD w pads (b :: rest) x
  = match pad_step w pads b x with
    | (x1, Ok _) => pad_loop SEP PAD w pads rest x1
    | (x1, Raise e) => (x1, Raise e)
    end.
Proof.
  cbn [pad_loop]. unfold pad_step, st_bind, st_lift, embedding, pad_boundary,
    assign_tail, assign_position.
  destruct (nth_error w PAD) as [pad |]; [| reflexivity].
  destruct (nth_error pads b) as [p |]; [| reflexivity].
  destruct (nth_error x b) as [row |] eqn:Hrow; [| reflexivity].
  assert (Hb : b < length x) by (apply nth_error_Some; congruence).
  destruct (nth_error w SEP) as [sep |]; [| reflexivity].
  rewrite (nth_error_set_nth_eq _ _ Hb), length_set_from.
  destruct (py_index (length row) (p - 1)) as [k | e]; [| reflexivity].
  rewrite set_nth_twice. reflexivity.
Qed.

Lemma map_length_set_nth (b : nat) (r row : list A) (x : embeds A) :
  nth_error x b = Some row -> length r = length row ->
  map (@length A) (set_nth b r x) = map (@length A) x.
Proof.
  revert b. induction x as [| a x IH]; intros [| b]; cbn; try discriminate.
  - intros E Hr. inversion E. subst. rewrite Hr. reflexivity.
  - intros E Hr. rewrite (IH b E Hr). reflexivity.
Qed.

(** An iteration keeps the shape, touches its own sequence only, and fails
    by an index error only. *)
Lemma pad_step_frame (w : list A) (pads : list Z) (b : nat) (x : embeds A) :
  map (@length A) (fst (pad_step w pads b x)) = map (@length A) x
  /\ (forall b', b' <> b -> nth_error (fst (pad_step w pads b x)) b' = nth_error x b')
  /\ (snd (pad_step w pads b x) = Ok tt \/ snd (pad_step w pads b x) = Raise IndexError).
Proof.
  unfold pad_step.
  destruct (nth_error w PAD) as [pad |]; [| cbn; auto].
  destruct (nth_error pads b) as [p |]; [| cbn; auto].
  destruct (nth_error x b) as [row |] eqn:Hrow; [| cbn; auto].
  assert (Htail : map (@length A)
                    (set_nth b (set_from (slice_start (length row) p) pad row) x)
                  = map (@length A) x)
    by (apply map_length_set_nth with (row := row);
        [exact Hrow | apply length_set_from]).
  destruct (nth_error w SEP) as [sep |].
  - unfold py_index.
    destruct (_ && _); [| destruct (_ && _)]; cbn [bind fst snd];
      (split; [| split; [intros b' Hb'; apply nth_error_set_nth_neq; auto | auto]]);
      try exact Htail;
      (apply map_length_set_nth with (row := row);
       [exact Hrow | apply length_pad_row]).
  - cbn [fst snd]. split; [exact Htail | split; [| auto]].
    intros b' Hb'. apply nth_error_set_nth_neq. auto.
Qed.

Lemma pad_loop_frame (w : list A) (pads : list Z) (ids : list nat) (x : embeds A) :
  map (@length A) (fst (pad_loop SEP PAD w pads ids x)) = map (@length A) x
  /\ (forall b, ~ In b ids ->
        nth_error (fst (pad_loop SEP PAD w pads ids x)) b = nth_error x b)
  /\ (snd (pad_loop SEP PAD w pads ids x) = Ok tt
      \/ snd (pad_loop SEP PAD w pads ids x) = Raise IndexError).
Proof.
  revert x. induction ids as [| b ids IH]; intros x.
  - cbn. auto.
  - rewrite pad_loop_cons.
    destruct (pad_step_frame w pads b x) as (Hshape & Hframe & Hout).
    destruct (pad_step w pads b x) as [x1 [[] | e]]; cbn [fst snd] in *.
    + destruct (IH x1) as (Hshape' & Hframe' & Hout').
      split; [congruence | split; [| exact Hout']].
      intros b' Hb'. rewrite Hframe' by (intros Hin; apply Hb'; right; exact Hin).
      apply Hframe. intros E. apply Hb'. left. auto.
    + split; [exact Hshape | split; [| exact Hout]].
      intros b' Hb'. apply Hframe. intros E. apply Hb'. left. auto.
Qed.

Lemma pad_loop_app (w : list A) (pads : list Z) (ids1 ids2 : list nat) (x : embeds A) :
  pad_loop SEP PAD w pads (ids1 ++ ids2) x
  = match pad_loop SEP PAD w pads ids1 x with
    | (x1, Ok _) => pad_loop SEP PAD w pads ids2 x1
    | (x1, Raise e) => (x1, Raise e)
    end.
Proof.
  revert x. induction ids1 as [| b ids1 IH]; intros x; [reflexivity |].
  cbn [app]. rewrite !pad_loop_cons.
  destruct (pad_step w pads b x) as [x1 [[] | e]]; [apply IH | reflexivity].
Qed.

(** The first assignment and what follows it. *)
Lemma fix_special_tokens_pads (w : list A) (pads : list Z) (x : embeds A) :
  fix_special_tokens CLS SEP PAD w (Some pads) x
  = match nth_error w CLS with
    | Some cls =>
        if forallb (@nonempty A) x
        then pad_loop SEP PAD w pads (seq 0 (length x)) (map (set_nth 0 cls) x)
        else (x, Raise IndexError)
    | None => (x, Raise IndexError)
    end.
Proof.
  unfold fix_special_tokens, st_bind, st_lift, st_get, embedding.
  destruct (nth_error w CLS) as [cls |]; [| reflexivity].
  rewrite assign_column_first.
  destruct (forallb (@nonempty A) x); [| reflexivity].
  rewrite length_map. reflexivity.
Qed.

Lemma map_length_set_first (cls : A) (x : embeds A) :
  map (@length A) (map (set_nth 0 cls) x) = map (@length A) x.
Proof. rewrite map_map. apply map_ext. intros row. apply length_set_nth. Qed.
End PadFacts.

(** X14.  Whatever the vocabulary, the boundaries and the tensor, and
    whether the call returns or raises, [fix_special_tokens] leaves the
    number of sequences and the length of each sequence as they were, and
    the only exception it raises is an index error. *)
Theorem fix_special_tokens_keeps_shape
    (A : Type) (CLS SEP PAD : nat) (w : list A) (pads : option (list Z)) (x : embeds A) :
  map (@length A) (fst (fix_special_tokens CLS SEP PAD w pads x)) = map (@length A) x
  /\ (snd (fix_special_tokens CLS SEP PAD w pads x) = Ok tt
      \/ snd (fix_special_tokens CLS SEP PAD w pads x) = Raise IndexError).
Proof.
  destruct pads as [pads |].
  - rewrite fix_special_tokens_pads.
    destruct (nth_error w CLS) as [cls |]; [| cbn; auto].
    destruct (forallb (@nonempty A) x); [| cbn; auto].
    destruct (pad_loop_frame SEP PAD w pads (seq 0 (length x)) (map (set_nth 0 cls) x))
      as (Hshape & _ & Hout).
    split; [| exact Hout]. rewrite Hshape. apply map_length_set_first.
  - unfold fix_special_tokens, st_bind, st_lift, st_get, embedding, st_ret.
    destruct (nth_error w CLS) as [cls |]; [| cbn; auto].
    rewrite assign_column_first.
    destruct (forallb (@nonempty A) x); [| cbn; auto].
    rewrite length_map.
    destruct (Nat.eqb (length x) 1) eqn:HB;
      [| cbn [fst snd]; split; [apply map_length_set_first | auto]].
    destruct (nth_error w SEP) as [sep |]; [| cbn [fst snd]; split;
      [apply map_length_set_first | auto]].
    unfold assign_column.
    destruct (mapM _ (map (set_nth 0 cls) x)) as [x' | e] eqn:Hm; cbn [fst snd].
    + split; [| auto]. apply mapM_ok_inv in Hm.
      rewrite <- (map_length_set_first cls x).
      induction Hm as [| row row' l l' Hrow _ IH]; [reflexivity |].
      cbn [map]. rewrite IH. f_equal.
      apply bind_ok_inv in Hrow as (k & _ & E). inversion E.
      apply length_set_nth.
    + split; [apply map_length_set_first |]. right.
      apply mapM_raise_inv in Hm as (row & _ & E).
      apply bind_raise_inv in E as [E | (k & _ & E)]; [| discriminate].
      unfold py_index in E.
      destruct (_ && _); [discriminate |]. destruct (_ && _); [discriminate |].
      inversion E. reflexivity.
Qed.

Section PadEffect.
Variable A : Type.
Variables CLS SEP PAD : nat.

Lemma nth_error_set_nth_any {B : Type} (k i : nat) (v : B) (l : list B) (a : B) :
  nth_error l i = Some a ->
  nth_error (set_nth k v l) i = Some (if Nat.eqb i k then v else a).
Proof.
  intros Hi. destruct (Nat.eqb_spec i k) as [-> | Hne].
  - apply nth_error_set_nth_eq. apply nth_error_Some. congruence.
  - rewrite nth_error_set_nth_neq by auto. exact Hi.
Qed.

Lemma nth_error_set_from (s i : nat) (v a : A) (row : list A) :
  nth_error row i = Some a ->
  nth_error (set_from s v row) i = Some (if Nat.ltb i s then a else v).
Proof.
  intros Hi. assert (Hlen : i < length row) by (apply nth_error_Some; congruence).
  unfold set_from. destruct (Nat.ltb_spec i s) as [Hlt | Hge].
  - rewrite nth_error_app1 by (rewrite length_firstn; lia).
    rewrite nth_error_firstn. destruct (Nat.ltb_spec i s); [exact Hi | lia].
  - rewrite nth_error_app2 by (rewrite length_firstn; lia).
    rewrite length_firstn. apply nth_error_repeat. lia.
Qed.

(** The sequence after the first assignment and one iteration, position
    by position: the later write wins. *)
Lemma nth_error_pad_row (cls pad sep : A) (p : Z) (k i : nat) (row : list A) (a : A) :
  nth_error row i = Some a ->
  nth_error (pad_row pad sep p k (set_nth 0 cls row)) i
  = Some (if Nat.eqb i k then sep
          else if Nat.ltb i (slice_start (length row) p)
               then (if Nat.eqb i 0 then cls else a)
               else pad).
Proof.
  intros Hi. unfold pad_row. rewrite length_set_nth.
  erewrite nth_error_set_nth_any; [reflexivity |].
  erewrite nth_error_set_from; [reflexivity |].
  apply nth_error_set_nth_any. exact Hi.
Qed.

Lemma pad_row_idempotent (cls pad sep : A) (p : Z) (k : nat) (row : list A) :
  pad_row pad sep p k (set_nth 0 cls (pad_row pad sep p k (set_nth 0 cls row)))
  = pad_row pad sep p k (set_nth 0 cls row).
Proof.
  apply nth_error_ext. intros i.
  destruct (nth_error row i) as [a |] eqn:Hi.
  - rewrite (@nth_error_pad_row cls pad sep p k i row a Hi).
    rewrite (@nth_error_pad_row cls pad sep p k i _ _
               (@nth_error_pad_row cls pad sep p k i row a Hi)).
    rewrite length_pad_row, length_set_nth.
    destruct (Nat.eqb i k); [reflexivity |].
    destruct (Nat.ltb i _); [| reflexivity].
    destruct (Nat.eqb i 0); reflexivity.
  - apply nth_error_None in Hi.
    transitivity (@None A); [| symmetry]; apply nth_error_None;
      repeat (rewrite length_pad_row || rewrite length_set_nth); exact Hi.
Qed.

(** Boundaries that the loop accepts for the sequences [ids] of [x]. *)
Definition boundaries_ok (pads : list Z) (ids : list nat) (x : embeds A) : Prop :=
  forall b, In b ids ->
    exists p row k, nth_error pads b = Some p /\ nth_error x b = Some row
                    /\ py_index (length row) (p - 1) = Ok k.

Lemma pad_loop_ok (w : list A) (pads : list Z) (pad sep : A) (ids : list nat)
    (x : embeds A) :
  nth_error w PAD = Some pad -> nth_error w SEP = Some sep ->
  NoDup ids -> boundaries_ok pads ids x ->
  exists x',
    pad_loop SEP PAD w pads ids x = (x', Ok tt)
    /\ forall b p row k,
         In b ids -> nth_error pads b = Some p -> nth_error x b = Some row ->
         py_index (length row) (p - 1) = Ok k ->
         nth_error x' b = Some (pad_row pad sep p k row).
Proof.
  intros Hpad Hsep. revert x.
  induction ids as [| b ids IH]; intros x Hnd Hok.
  - exists x. split; [reflexivity | intros b p row k []].
  - inversion Hnd as [| ? ? Hnotin Hnd']. subst.
    destruct (Hok b (or_introl eq_refl)) as (p & row & k & Hp & Hrow & Hk).
    assert (Hstep : pad_step SEP PAD w pads b x
                    = (set_nth b (pad_row pad sep p k row) x, Ok tt)).
    { unfold pad_step. rewrite Hpad, Hp, Hrow, Hsep, Hk. reflexivity. }
    assert (Hother : forall b', b' <> b ->
              nth_error (set_nth b (pad_row pad sep p k row) x) b' = nth_error x b').
    { intros b' Hb'. apply nth_error_set_nth_neq. auto. }
    destruct (IH (set_nth b (pad_row pad sep p k row) x) Hnd') as (x' & Hloop & Hrows).
    { intros b' Hb'. destruct (Hok b' (or_intror Hb')) as (p' & row' & k' & H1 & H2 & H3).
      exists p', row', k'. rewrite Hother by (intros E; subst; contradiction). auto. }
    exists x'. split; [rewrite pad_loop_cons, Hstep; exact Hloop |].
    intros b' p' row' k' [<- | Hin] Hp' Hrow' Hk'.
    + destruct (pad_loop_frame SEP PAD w pads ids
                  (set_nth b (pad_row pad sep p k row) x)) as (_ & Hframe & _).
      rewrite Hloop in Hframe. cbn [fst] in Hframe. rewrite (Hframe b Hnotin).
      assert (Hb : b < length x) by (apply nth_error_Some; congruence).
      rewrite (nth_error_set_nth_eq _ _ Hb). congruence.
    + apply Hrows; try assumption.
      rewrite Hother by (intros E; subst; contradiction). exact Hrow'.
Qed.

Lemma pad_loop_ok_inv (w : list A) (pads : list Z) (ids : list nat) (x x' : embeds A) :
  NoDup ids -> ids <> [] ->
  pad_loop SEP PAD w pads ids x = (x', Ok tt) ->
  (exists pad sep, nth_error w PAD = Some pad /\ nth_error w SEP = Some sep)
  /\ boundaries_ok pads ids x.
Proof.
  revert x. induction ids as [| b ids IH]; intros x Hnd Hne Hloop; [contradiction |].
  inversion Hnd as [| ? ? Hnotin Hnd']. subst.
  rewrite pad_loop_cons in Hloop.
  destruct (pad_step_frame SEP PAD w pads b x) as (_ & Hframe & _).
  unfold pad_step in Hloop, Hframe.
  destruct (nth_error w PAD) as [pad |]; [| discriminate].
  destruct (nth_error pads b) as [p |] eqn:Hp; [| discriminate].
  destruct (nth_error x b) as [row |] eqn:Hrow; [| discriminate].
  destruct (nth_error w SEP) as [sep |]; [| discriminate].
  destruct (py_index (length row) (p - 1)) as [k | e] eqn:Hk; [| discriminate].
  cbn [fst] in Hframe.
  split; [eauto |].
  intros b' [<- | Hin]; [exists p, row, k; auto |].
  destruct ids as [| b0 ids0]; [contradiction |].
  destruct (IH _ Hnd' ltac:(discriminate) Hloop) as (_ & Hok).
  destruct (Hok b' Hin) as (p' & row' & k' & H1 & H2 & H3).
  exists p', row', k'. rewrite Hframe in H2 by (intros E; subst; contradiction). auto.
Qed.
End PadEffect.

(** X15.  With boundaries for every sequence, each between 1 and the
    length of its sequence, and the three special ids in the vocabulary,
    the call returns; in sequence [b] with boundary [p] the position
    [p - 1] holds the "end" embedding, the positions from [p] on hold the
    "pad" embedding, and of the positions before [p - 1] the first holds
    the "start" embedding and the others are unchanged.  (For [p = 1] the
    "end" embedding replaces the "start" embedding at position 0.) *)
Theorem fix_special_tokens_pads_effect
    (A : Type) (CLS SEP PAD : nat) (w : list A) (pads : list Z) (x : embeds A)
    (cls sep pad : A) :
  nth_error w CLS = Some cls ->
  nth_error w SEP = Some sep ->
  nth_error w PAD = Some pad ->
  (forall b row, nth_error x b = Some row ->
     exists p, nth_error pads b = Some p /\ (1 <= p <= Z.of_nat (length row))%Z) ->
  exists x',
    fix_special_tokens CLS SEP PAD w (Some pads) x = (x', Ok tt)
    /\ forall b row p i a,
         nth_error x b = Some row -> nth_error pads b = Some p ->
         nth_error row i = Some a ->
         nth_error (nth b x' []) i
         = Some (if (Z.of_nat i =? p - 1)%Z then sep
                 else if (p <=? Z.of_nat i)%Z then pad
                 else if Nat.eqb i 0 then cls
                 else a).
Proof.
  intros Hcls Hsep Hpad Hbounds.
  rewrite fix_special_tokens_pads, Hcls.
  assert (Hne : forallb (@nonempty A) x = true).
  { apply forallb_forall. intros row Hin.
    apply In_nth_error in Hin as (b & Hb).
    destruct (Hbounds b row Hb) as (p & _ & Hp).
    destruct row; [cbn in Hp; lia | reflexivity]. }
  rewrite Hne.
  assert (Hindex : forall (row : list A) p, (1 <= p <= Z.of_nat (length row))%Z ->
            py_index (length (set_nth 0 cls row)) (p - 1) = Ok (Z.to_nat (p - 1))).
  { intros row p Hp. rewrite length_set_nth. unfold py_index.
    assert (E : ((0 <=? p - 1)%Z && (p - 1 <? Z.of_nat (length row))%Z) = true).
    { apply andb_true_intro. split; [apply Z.leb_le | apply Z.ltb_lt]; lia. }
    rewrite E. reflexivity. }
  destruct (@pad_loop_ok A SEP PAD w pads pad sep (seq 0 (length x))
              (map (set_nth 0 cls) x) Hpad Hsep (seq_NoDup _ _)) as (x' & Hloop & Hrows).
  { intros b Hb. apply in_seq in Hb.
    destruct (nth_error x b) as [row |] eqn:Hrow;
      [| apply nth_error_None in Hrow; lia].
    destruct (Hbounds b row Hrow) as (p & Hp & Hrange).
    exists p, (set_nth 0 cls row), (Z.to_nat (p - 1)).
    split; [exact Hp | split; [apply map_nth_error; exact Hrow | apply Hindex; exact Hrange]]. }
  exists x'. split; [exact Hloop |].
  intros b row p i a Hrow Hp Hi.
  destruct (Hbounds b row Hrow) as (p' & Hp' & Hrange).
  assert (p' = p) by congruence. subst p'.
  assert (Hb : In b (seq 0 (length x))).
  { apply in_seq. split; [lia |]. apply nth_error_Some. congruence. }
  rewrite (nth_error_nth _ _ []
             (Hrows b p (set_nth 0 cls row) (Z.to_nat (p - 1)) Hb Hp
                (map_nth_error _ _ _ Hrow) (Hindex row p Hrange))).
  rewrite (@nth_error_pad_row A cls pad sep p (Z.to_nat (p - 1)) i row a Hi).
  f_equal.
  assert (Hlen : i < length row) by (apply nth_error_Some; congruence).
  assert (Hstart : slice_start (length row) p = Z.to_nat p).
  { unfold slice_start. destruct (Z.ltb_spec p 0); lia. }
  rewrite Hstart.
  destruct (Nat.eqb_spec i (Z.to_nat (p - 1))), (Z.eqb_spec (Z.of_nat i) (p - 1));
    try lia; try reflexivity.
  destruct (Nat.ltb_spec i (Z.to_nat p)), (Z.leb_spec p (Z.of_nat i));
    try lia; reflexivity.
Qed.

Lemma fix_special_tokens_pads_effect_witness :
  exists x',
    fix_special_tokens 101 102 0 (seq 1000 200) (Some [3%Z; 1%Z])
      [[1; 2; 3; 4]; [5; 6; 7; 8]] = (x', Ok tt)
    /\ x' = [[1101; 2; 1102; 1000]; [1102; 1000; 1000; 1000]]
    /\ forall b row p i a,
         nth_error [[1; 2; 3; 4]; [5; 6; 7; 8]] b = Some row ->
         nth_error [3%Z; 1%Z] b = Some p ->
         nth_error row i = Some a ->
         nth_error (nth b x' []) i
         = Some (if (Z.of_nat i =? p - 1)%Z then 1102
                 else if (p <=? Z.of_nat i)%Z then 1000
                 else if Nat.eqb i 0 then 1101
                 else a).
Proof.
  destruct (@fix_special_tokens_pads_effect nat 101 102 0 (seq 1000 200) [3%Z; 1%Z]
              [[1; 2; 3; 4]; [5; 6; 7; 8]] 1101 1102 1000 eq_refl eq_refl eq_refl)
    as (x' & Hcall & Hrows).
  - intros [| [| b]] row Hrow; cbn in Hrow; inversion Hrow; subst.
    + exists 3%Z. split; [reflexivity | cbn; lia].
    + exists 1%Z. split; [reflexivity | cbn; lia].
    + destruct b; discriminate.
  - exists x'. split; [exact Hcall | split; [| exact Hrows]].
    vm_compute in Hcall. inversion Hcall. reflexivity.
Defined.

(** X16.  An exception does not undo what was written before it.  With
    fewer boundaries than sequences (the "start" id in the vocabulary, no
    sequence empty) the call raises an index error, and every sequence that
    has no boundary has by then its first position overwritten with the
    "start" embedding. *)
Theorem fix_special_tokens_exception_keeps_writes
    (A : Type) (CLS SEP PAD : nat) (w : list A) (pads : list Z) (x : embeds A)
    (cls : A) :
  nth_error w CLS = Some cls ->
  Forall (fun row => row <> []) x ->
  length pads < length x ->
  snd (fix_special_tokens CLS SEP PAD w (Some pads) x) = Raise IndexError
  /\ forall b row,
       length pads <= b -> nth_error x b = Some row ->
       nth_error (fst (fix_special_tokens CLS SEP PAD w (Some pads) x)) b
       = Some (set_nth 0 cls row).
Proof.
  intros Hcls Hrows Hshort.
  rewrite fix_special_tokens_pads, Hcls.
  assert (Hne : forallb (@nonempty A) x = true).
  { apply forallb_forall. intros row Hin. rewrite Forall_forall in Hrows.
    specialize (Hrows row Hin). destruct row; [contradiction | reflexivity]. }
  rewrite Hne.
  assert (Hseq : seq 0 (length x)
                 = seq 0 (length pads) ++ seq (length pads) (length x - length pads)).
  { change (length pads) with (0 + length pads) at 2.
    rewrite <- (seq_app (length pads) (length x - length pads) 0). f_equal. lia. }
  rewrite Hseq, pad_loop_app. clear Hseq.
  destruct (pad_loop_frame SEP PAD w pads (seq 0 (length pads)) (map (set_nth 0 cls) x))
    as (_ & Hframe & Hout).
  assert (Hkept : forall b row, length pads <= b -> nth_error x b = Some row ->
            nth_error (fst (pad_loop SEP PAD w pads (seq 0 (length pads))
                              (map (set_nth 0 cls) x))) b
            = Some (set_nth 0 cls row)).
  { intros b row Hb Hrow. rewrite Hframe by (rewrite in_seq; lia).
    apply map_nth_error. exact Hrow. }
  destruct (pad_loop SEP PAD w pads (seq 0 (length pads)) (map (set_nth 0 cls) x))
    as [x1 [[] | e]]; cbn [fst snd] in *.
  - destruct (length x - length pads) as [| m] eqn:Hm; [lia |].
    cbn [seq]. rewrite pad_loop_cons. unfold pad_step.
    assert (Hnone : nth_error pads (length pads) = None)
      by (apply nth_error_None; lia).
    rewrite Hnone.
    destruct (nth_error w PAD); cbn [fst snd]; split; auto.
  - destruct Hout as [E | E]; [discriminate |]. split; [exact E | exact Hkept].
Qed.

Lemma fix_special_tokens_exception_keeps_writes_witness :
  fix_special_tokens 101 102 0 (seq 1000 200) (Some [2%Z])
    [[1; 2; 3]; [4; 5; 6]]
  = ([[1101; 1102; 1000]; [1101; 5; 6]], Raise IndexError)
  /\ forall b row,
       length [2%Z] <= b -> nth_error [[1; 2; 3]; [4; 5; 6]] b = Some row ->
       nth_error (fst (fix_special_tokens 101 102 0 (seq 1000 200) (Some [2%Z])
                         [[1; 2; 3]; [4; 5; 6]])) b
       = Some (set_nth 0 1101 row).
Proof.
  split; [vm_compute; reflexivity |].
  apply (@fix_special_tokens_exception_keeps_writes nat 101 102 0 (seq 1000 200) [2%Z]
           [[1; 2; 3]; [4; 5; 6]] 1101 eq_refl).
  - repeat constructor; discriminate.
  - cbn. lia.
Defined.

Section Idempotence.
Variable A : Type.
Variables CLS SEP PAD : nat.

Lemma nonempty_shape (x x' : embeds A) :
  map (@length A) x' = map (@length A) x ->
  forallb (@nonempty A) x' = forallb (@nonempty A) x.
Proof.
  revert x'. induction x as [| row x IH]; intros [| row' x']; cbn; try discriminate;
    [reflexivity |].
  intros E. inversion E as [[Hrow Hrest]]. rewrite (IH x' Hrest).
  destruct row, row'; cbn in *; try discriminate; reflexivity.
Qed.

Lemma shape_length (x x' : embeds A) :
  map (@length A) x' = map (@length A) x -> length x' = length x.
Proof.
  intros E. rewrite <- (length_map (@length A) x'), E. apply length_map.
Qed.

(** The loop run again on its own result, after the first assignment is
    run again too, changes nothing. *)
Lemma pad_loop_idempotent (w : list A) (pads : list Z) (cls : A) (x x' : embeds A) :
  pad_loop SEP PAD w pads (seq 0 (length x)) (map (set_nth 0 cls) x) = (x', Ok tt) ->
  pad_loop SEP PAD w pads (seq 0 (length x')) (map (set_nth 0 cls) x') = (x', Ok tt).
Proof.
  intros Hloop.
  destruct (pad_loop_frame SEP PAD w pads (seq 0 (length x)) (map (set_nth 0 cls) x))
    as (Hshape & _ & _).
  rewrite Hloop in Hshape. cbn [fst] in Hshape.
  rewrite map_length_set_first in Hshape.
  assert (Hlen : length x' = length x) by (apply shape_length; exact Hshape).
  rewrite Hlen.
  destruct x as [| row0 x0] eqn:Ex.
  { destruct x'; [| discriminate]. reflexivity. }
  rewrite <- Ex in *. assert (Hx : length x <> 0) by (subst x; discriminate). clear Ex.
  assert (Hids : seq 0 (length x) <> []) by (destruct (length x); [lia | discriminate]).
  destruct (@pad_loop_ok_inv A SEP PAD w pads _ _ _ (seq_NoDup _ _) Hids Hloop)
    as ((pad & sep & Hpad & Hsep) & Hok).
  destruct (@pad_loop_ok A SEP PAD w pads pad sep _ _ Hpad Hsep (seq_NoDup _ _) Hok)
    as (x1 & Hloop1 & Hrows1).
  assert (x1 = x') by congruence. subst x1. clear Hloop1.
  assert (Hok' : boundaries_ok pads (seq 0 (length x)) (map (set_nth 0 cls) x')).
  { intros b Hb. destruct (Hok b Hb) as (p & row & k & Hp & Hrow & Hk).
    exists p, (set_nth 0 cls (pad_row pad sep p k row)), k.
    split; [exact Hp | split].
    - apply map_nth_error. eapply Hrows1; eassumption.
    - rewrite length_set_nth, length_pad_row. exact Hk. }
  destruct (@pad_loop_ok A SEP PAD w pads pad sep _ _ Hpad Hsep (seq_NoDup _ _) Hok')
    as (x2 & Hloop2 & Hrows2).
  rewrite Hloop2. f_equal.
  destruct (pad_loop_frame SEP PAD w pads (seq 0 (length x)) (map (set_nth 0 cls) x'))
    as (Hshape2 & _ & _).
  rewrite Hloop2 in Hshape2. cbn [fst] in Hshape2.
  rewrite map_length_set_first in Hshape2.
  apply nth_error_ext. intros b.
  destruct (Nat.lt_ge_cases b (length x)) as [Hb | Hb].
  - assert (Hin : In b (seq 0 (length x))) by (apply in_seq; lia).
    destruct (Hok b Hin) as (p & row & k & Hp & Hrow & Hk).
    rewrite (Hrows1 b p row k Hin Hp Hrow Hk).
    assert (Hrow' : nth_error (map (set_nth 0 cls) x') b
                    = Some (set_nth 0 cls (pad_row pad sep p k row))).
    { apply map_nth_error. eapply Hrows1; eassumption. }
    rewrite (Hrows2 b p _ k Hin Hp Hrow'
               ltac:(rewrite length_set_nth, length_pad_row; exact Hk)).
    f_equal.
    destruct (nth_error x b) as [r |] eqn:Hr; [| apply nth_error_None in Hr; lia].
    rewrite (map_nth_error (set_nth 0 cls) _ _ Hr) in Hrow. inversion Hrow.
    apply pad_row_idempotent.
  - transitivity (@None (list A)); [| symmetry]; apply nth_error_None.
    + rewrite (shape_length _ _ Hshape2), Hlen. exact Hb.
    + rewrite Hlen. exact Hb.
Qed.
End Idempotence.

(** With no pad boundaries, the call on a batch of one sequence in closed
    form. *)
Lemma single_sequence_closed_form
    (A : Type) (CLS SEP PAD : nat) (w : list A) (row : list A) :
  fix_special_tokens CLS SEP PAD w None [row]
  = match nth_error w CLS with
    | Some cls =>
        match row with
        | [] => ([row], Raise IndexError)
        | _ :: tl =>
            match nth_error w SEP with
            | Some sep => ([set_nth (length tl) sep (cls :: tl)], Ok tt)
            | None => ([cls :: tl], Raise IndexError)
            end
        end
    | None => ([row], Raise IndexError)
    end.
Proof.
  unfold fix_special_tokens, st_bind, st_lift, st_get, embedding.
  destruct (nth_error w CLS) as [cls |]; [| reflexivity].
  rewrite assign_column_first.
  destruct row as [| a row]; [reflexivity |].
  cbn [forallb nonempty andb map set_nth length Nat.eqb].
  destruct (nth_error w SEP) as [sep |]; [| reflexivity].
  unfold assign_column. cbn [mapM length]. rewrite py_index_last. reflexivity.
Qed.

(** X17.  A call that returned can be repeated without effect: applied,
    with the same vocabulary and boundaries, to the tensor it has fixed,
    [fix_special_tokens] returns again and leaves that tensor as it is. *)
Theorem fix_special_tokens_idempotent
    (A : Type) (CLS SEP PAD : nat) (w : list A) (pads : option (list Z)) (x : embeds A) :
  snd (fix_special_tokens CLS SEP PAD w pads x) = Ok tt ->
  fix_special_tokens CLS SEP PAD w pads (fst (fix_special_tokens CLS SEP PAD w pads x))
  = (fst (fix_special_tokens CLS SEP PAD w pads x), Ok tt).
Proof.
  destruct pads as [pads |].
  - rewrite !fix_special_tokens_pads.
    destruct (nth_error w CLS) as [cls |] eqn:Hcls; [| discriminate].
    destruct (forallb (@nonempty A) x) eqn:Hne; [| discriminate].
    destruct (pad_loop SEP PAD w pads (seq 0 (length x)) (map (set_nth 0 cls) x))
      as [x' r] eqn:Hloop.
    cbn [fst snd]. intros ->.
    destruct (pad_loop_frame SEP PAD w pads (seq 0 (length x)) (map (set_nth 0 cls) x))
      as (Hshape & _ & _).
    rewrite Hloop in Hshape. cbn [fst] in Hshape.
    rewrite map_length_set_first in Hshape.
    rewrite (nonempty_shape _ _ Hshape), Hne.
    apply (pad_loop_idempotent _ _ _ _ _ _ Hloop).
  - destruct (Nat.eq_dec (length x) 1) as [HB | HB].
    + destruct x as [| row [| ? ?]]; try discriminate.
      rewrite (single_sequence_closed_form CLS SEP PAD w row).
      destruct (nth_error w CLS) as [cls |] eqn:Hcls; [| discriminate].
      destruct row as [| a row]; [discriminate |].
      destruct (nth_error w SEP) as [sep |] eqn:Hsep; [| discriminate].
      cbn [fst snd]. intros _.
      rewrite single_sequence_closed_form, Hcls.
      destruct row as [| a' row]; cbn [set_nth length]; rewrite Hsep.
      * reflexivity.
      * rewrite length_set_nth. cbn [length].
        change (set_nth (S (length row)) sep
                  (cls :: set_nth (length row) sep (a' :: row)))
          with (cls :: set_nth (length row) sep (set_nth (length row) sep (a' :: row))).
        rewrite set_nth_twice. reflexivity.
    + rewrite (fix_special_tokens_no_pads CLS SEP PAD w x HB).
      destruct (nth_error w CLS) as [cls |] eqn:Hcls; [| discriminate].
      destruct (forallb (@nonempty A) x) eqn:Hne; [| discriminate].
      cbn [fst snd]. intros _.
      rewrite fix_special_tokens_no_pads by (rewrite length_map; exact HB).
      rewrite Hcls, (nonempty_shape _ _ (map_length_set_first cls x)), Hne.
      f_equal. rewrite map_map. apply map_ext. intros row. apply set_nth_twice.
Qed.

Lemma fix_special_tokens_idempotent_witness :
  fix_special_tokens 101 102 0 (seq 1000 200) (Some [3%Z; 1%Z])
    [[1; 2; 3; 4]; [5; 6; 7; 8]]
  = ([[1101; 2; 1102; 1000]; [1102; 1000; 1000; 1000]], Ok tt)
  /\ fix_special_tokens 101 102 0 (seq 1000 200) (Some [3%Z; 1%Z])
       (fst (fix_special_tokens 101 102 0 (seq 1000 200) (Some [3%Z; 1%Z])
               [[1; 2; 3; 4]; [5; 6; 7; 8]]))
     = (fst (fix_special_tokens 101 102 0 (seq 1000 200) (Some [3%Z; 1%Z])
               [[1; 2; 3; 4]; [5; 6; 7; 8]]), Ok tt).
Proof.
  split; [vm_compute; reflexivity |].
  apply (@fix_special_tokens_idempotent nat 101 102 0 (seq 1000 200) (Some [3%Z; 1%Z])
           [[1; 2; 3; 4]; [5; 6; 7; 8]]).
  vm_compute. reflexivity.
Defined.

Section CutFacts.
Variable SEP : nat.

Lemma last_occurrence (l : list nat) :
  In SEP l -> exists pre post, l = pre ++ SEP :: post /\ ~ In SEP post.
Proof.
  induction l as [| b l IH]; [intros [] |].
  intros Hin. destruct (in_dec Nat.eq_dec SEP l) as [Hl | Hl].
  - destruct (IH Hl) as (pre & post & -> & Hpost).
    exists (b :: pre), post. split; [reflexivity | exact Hpost].
  - destruct Hin as [-> | Hin]; [| contradiction].
    exists [], l. split; [reflexivity | exact Hl].
Qed.

Lemma scan_back_cut (pre post : list nat) :
  ~ In SEP post ->
  scan_back SEP (pre ++ SEP :: post) (length (pre ++ SEP :: post)) = pre ++ [SEP].
Proof.
  intros Hnot.
  rewrite <- (app_nil_r (pre ++ SEP :: post)) at 1.
  apply scan_back_last_occurrence. exact Hnot.
Qed.

Lemma scan_back_keep (ids : list nat) :
  ~ In SEP ids -> scan_back SEP ids (length ids) = ids.
Proof.
  intros Hnot. rewrite <- (app_nil_r ids) at 1.
  rewrite scan_back_no_occurrence by exact Hnot. apply app_nil_r.
Qed.
End CutFacts.

(** X18.  What [remove_padding] decodes is a prefix of [ids], the ids it
    drops hold no end token, and the cut is stable: applied to the ids it
    has kept, [remove_padding] decodes the same string. *)
Theorem remove_padding_cut_is_stable
    (END : nat) (tokenizer : list nat -> string) (ids : list nat) :
  (exists dropped,
     ids = scan_back END ids (length ids) ++ dropped /\ ~ In END dropped)
  /\ remove_padding END tokenizer (scan_back END ids (length ids))
     = remove_padding END tokenizer ids.
Proof.
  unfold remove_padding.
  destruct (in_dec Nat.eq_dec END ids) as [Hin | Hnot].
  - destruct (last_occurrence END ids Hin) as (pre & post & -> & Hpost).
    rewrite (scan_back_cut END pre post Hpost). split.
    + exists post. split; [| exact Hpost].
      rewrite <- app_assoc. reflexivity.
    + f_equal. apply (scan_back_cut END pre []). intros [].
  - rewrite (scan_back_keep END ids Hnot). split.
    + exists []. split; [symmetry; apply app_nil_r | intros []].
    + rewrite (scan_back_keep END ids Hnot). reflexivity.
Qed.
